(** * xox: the PDF pattern extraction script [scripts/parse_pdf_patterns.py]

    A shallow embedding of the pure normalisers ([name_to_id], [clean_name],
    [normalize_pattern]), of the page driver ([process_page], [do_parse]) and
    of the catalog merger ([do_merge]), with the properties the design
    document states about them. *)

From Stdlib Require Import NArith ZArith Ascii String DecimalString List Permutation Lia.
From Stdlib Require Sorted.
From stdpp Require Import base option list gmap.

Open Scope N_scope.

(** ** Python strings

    A Python [str] is a sequence of Unicode code points.  Literals of the
    source are ASCII and are written [py "..."]. *)

Definition char := N.
Definition str := list char.

Definition py (s : string) : str := map N_of_ascii (list_ascii_of_string s).

Definition HYPHEN : char := Eval vm_compute in N_of_ascii "-".
Definition COLON : char := Eval vm_compute in N_of_ascii ":".
Definition SPACE : char := Eval vm_compute in N_of_ascii " ".
Definition ZERO : char := Eval vm_compute in N_of_ascii "0".
Definition ONE : char := Eval vm_compute in N_of_ascii "1".

Definition in_range (lo hi c : char) : bool := (lo <=? c) && (c <=? hi).

(** The regular-expression class [a-z0-9\-]. *)
Definition is_slug_char (c : char) : bool :=
  in_range 97 122 c || in_range 48 57 c || (c =? HYPHEN).

(** The class [\s] of a [str] pattern, which is also the set [str.strip()]
    removes: the code points Python calls whitespace. *)
Definition is_space (c : char) : bool :=
  in_range 9 13 c || in_range 28 32 c || (c =? 133) || (c =? 160)
  || (c =? 5760) || in_range 8192 8202 c || (c =? 8232) || (c =? 8233)
  || (c =? 8239) || (c =? 8287) || (c =? 12288).

(** [str.lower] and [str.capitalize] follow the Unicode case tables, which are
    not reproduced here: the embedding is parametric in them.  [ascii_case]
    is the instance that agrees with Python on ASCII text. *)
Class CaseMapping := {
  str_lower : str -> str;
  str_capitalize : str -> str
}.

Definition ascii_lower_char (c : char) : char :=
  if in_range 65 90 c then c + 32 else c.
Definition ascii_upper_char (c : char) : char :=
  if in_range 97 122 c then c - 32 else c.

Definition ascii_case : CaseMapping := {|
  str_lower := map ascii_lower_char;
  str_capitalize := fun s =>
    match s with
    | [] => []
    | c :: r => ascii_upper_char c :: map ascii_lower_char r
    end
|}.

(** [s.strip(c)] for a one-character argument. *)
Fixpoint lstrip_char (c : char) (s : str) : str :=
  match s with
  | [] => []
  | x :: r => if x =? c then lstrip_char c r else s
  end.
Definition rstrip_char (c : char) (s : str) : str :=
  rev (lstrip_char c (rev s)).
Definition strip_char (c : char) (s : str) : str :=
  rstrip_char c (lstrip_char c s).

(** [s.strip()]. *)
Fixpoint lstrip_space (s : str) : str :=
  match s with
  | [] => []
  | x :: r => if is_space x then lstrip_space r else s
  end.
Definition strip_space (s : str) : str :=
  rev (lstrip_space (rev (lstrip_space s))).

(** [s.split(sep)] for a one-character separator: never empty, [""] splits
    into [[""]]. *)
Fixpoint split_char (sep : char) (s : str) : list str :=
  match s with
  | [] => [[]]
  | x :: r =>
      if x =? sep then [] :: split_char sep r
      else match split_char sep r with
           | [] => [[x]]
           | w :: ws => (x :: w) :: ws
           end
  end.

(** [sep.join(parts)]. *)
Fixpoint join (sep : str) (parts : list str) : str :=
  match parts with
  | [] => []
  | [w] => w
  | w :: ws => w ++ sep ++ join sep ws
  end.

(** [needle in s] on strings. *)
Fixpoint starts_with (p s : str) : bool :=
  match p, s with
  | [], _ => true
  | _ :: _, [] => false
  | a :: p', b :: s' => (a =? b) && starts_with p' s'
  end.
Fixpoint contains (needle s : str) : bool :=
  starts_with needle s ||
  match s with
  | [] => false
  | _ :: r => contains needle r
  end.

(** ** The regular-expression substitutions of the normalisers *)

(** [re.sub(r":\s*", rep, s)]: each colon, together with the whitespace that
    follows it, is replaced by [rep].  [skipping] is true while the scan still
    is inside the whitespace of a match. *)
Fixpoint sub_colon_from (rep : char) (skipping : bool) (s : str) : str :=
  match s with
  | [] => []
  | c :: r =>
      if skipping && is_space c then sub_colon_from rep true r
      else if c =? COLON then rep :: sub_colon_from rep true r
      else c :: sub_colon_from rep false r
  end.
Definition sub_colon (rep : char) (s : str) : str := sub_colon_from rep false s.

(** [re.sub(r"[^a-z0-9\-]", "-", s)]. *)
Definition sub_non_slug (s : str) : str :=
  map (fun c => if is_slug_char c then c else HYPHEN) s.

(** [re.sub(r"-+", "-", s)]; [prev] is true right after a hyphen. *)
Fixpoint collapse_hyphens_from (prev : bool) (s : str) : str :=
  match s with
  | [] => []
  | c :: r =>
      if c =? HYPHEN
      then (if prev then collapse_hyphens_from true r
            else HYPHEN :: collapse_hyphens_from true r)
      else c :: collapse_hyphens_from false r
  end.
Definition collapse_hyphens (s : str) : str := collapse_hyphens_from false s.

(** [re.sub(r"\s+", " ", s)]. *)
Fixpoint collapse_spaces_from (prev : bool) (s : str) : str :=
  match s with
  | [] => []
  | c :: r =>
      if is_space c
      then (if prev then collapse_spaces_from true r
            else SPACE :: collapse_spaces_from true r)
      else c :: collapse_spaces_from false r
  end.
Definition collapse_spaces (s : str) : str := collapse_spaces_from false s.

(** ** [name_to_id] and [clean_name] *)

Section Names.
Context {CM : CaseMapping}.

Definition name_to_id (name : str) : str :=
  let s := str_lower name in
  let s := sub_colon HYPHEN s in
  let s := sub_non_slug s in
  let s := collapse_hyphens s in
  strip_char HYPHEN s.

Definition clean_name (name : str) : str :=
  let s := sub_colon SPACE name in
  let s := strip_space (collapse_spaces s) in
  let parts := split_char SPACE s in
  let titled :=
    map (fun part => join [HYPHEN] (map str_capitalize (split_char HYPHEN part)))
        parts in
  join [SPACE] titled.
End Names.

(** ** Python dictionaries

    A [dict] keeps its keys in insertion order; assigning to a key that is
    present replaces the value in place. *)

Fixpoint str_eqb (a b : str) : bool :=
  match a, b with
  | [], [] => true
  | x :: a', y :: b' => (x =? y) && str_eqb a' b'
  | _, _ => false
  end.

Definition dict (V : Type) := list (str * V).

Section Dict.
Context {V : Type}.

(** [d.get(k)] *)
Fixpoint dict_get (k : str) (d : dict V) : option V :=
  match d with
  | [] => None
  | (k', v) :: r => if str_eqb k k' then Some v else dict_get k r
  end.

(** [k in d] *)
Definition dict_mem (k : str) (d : dict V) : bool :=
  match dict_get k d with Some _ => true | None => false end.

(** [d[k] = v] *)
Fixpoint dict_set (k : str) (v : V) (d : dict V) : dict V :=
  match d with
  | [] => [(k, v)]
  | (k', v') :: r =>
      if str_eqb k k' then (k', v) :: r else (k', v') :: dict_set k v r
  end.

Definition dict_keys (d : dict V) : list str := map fst d.
Definition dict_values (d : dict V) : list V := map snd d.

(** [d.update(other)] *)
Definition dict_update (d other : dict V) : dict V :=
  fold_left (fun acc kv => dict_set (fst kv) (snd kv) acc) other d.
End Dict.

(** ** Sorting

    [sorted(l, key=...)] is stable; strings compare by code point. *)

Fixpoint str_ltb (a b : str) : bool :=
  match a, b with
  | _, [] => false
  | [], _ :: _ => true
  | x :: a', y :: b' => (x <? y) || ((x =? y) && str_ltb a' b')
  end.

Section Sorted.
Context {A : Type} (key : A -> str).

Fixpoint insert_sorted (x : A) (l : list A) : list A :=
  match l with
  | [] => [x]
  | y :: r => if str_ltb (key y) (key x) then y :: insert_sorted x r else x :: l
  end.

Definition py_sorted (l : list A) : list A := foldr insert_sorted [] l.
End Sorted.

(** ** Records of the pipeline *)

(** The structured answer of the recognition service. *)
Record InstrumentPattern := {
  instrument_id : str;
  hits : str
}.

Record DrumPattern := {
  dp_name : str;
  dp_grid_width : Z;
  instruments : list InstrumentPattern
}.

(** The raw dictionary [normalize_pattern] receives; it reads every key with
    [raw.get], so each of them may be missing. *)
Record RawPattern := {
  raw_name : option str;
  raw_grid_width : option Z;
  raw_steps : option (dict str)
}.

(** The dictionary [normalize_pattern] returns: keys ["id"], ["name"] and
    ["steps"]. *)
Record Pattern := {
  pattern_id : str;
  display_name : str;
  steps : dict str
}.

Definition ALL_TRACK_IDS : list str := Eval vm_compute in
  map py ["ac"; "bd"; "sd"; "ch"; "oh"; "cy"; "ht"; "mt"; "lt"; "rs"; "cp"; "cb"]%string.

Definition INSTRUMENT_MAP : dict str := Eval vm_compute in
  map (fun kv => (py (fst kv), py (snd kv)))
    [("AC", "ac"); ("CY", "cy"); ("CH", "ch"); ("OH", "oh");
     ("HT", "ht"); ("MT", "mt"); ("SD", "sd"); ("RS", "rs");
     ("LT", "lt"); ("CPS", "cp"); ("CB", "cb"); ("BD", "bd")]%string.

(** ["0" * 16] *)
Definition ZEROS16 : str := Eval vm_compute in repeat ZERO 16.

(** What the script prints, one constructor per [print] call. *)
Inductive Msg :=
| MsgInvalidSteps (pdf_key name step_str : str)
| MsgAlreadyDone (page_num : nat)
| MsgRendering (page_num : nat)
| MsgSending (page_num : nat)
| MsgPageError (page_num : nat) (text : str)
| MsgPagePatterns (page_num count skipped : nat) (names : list str)
| MsgPdfNotFound
| MsgParseDone (total_patterns start end_ : nat)
| MsgNoOutputDir
| MsgNoPageFiles
| MsgFound (unique page_files : nat)
| MsgDryRun
| MsgWouldAdd (n : nat)
| MsgWouldUpdate (n : nat)
| MsgNew (ids : list str)
| MsgUpdated (ids : list str)
| MsgWrote (n : nat)
| MsgAdded (n : nat)
| MsgUpdatedCount (n : nat)
| MsgKept (n : nat).

(** ** [normalize_pattern] *)

(** [len(step_str) != 16 or not all(c in "01" for c in step_str)], negated. *)
Definition valid_step_str (step_str : str) : bool :=
  Nat.eqb (length step_str) 16
  && forallb (fun c => (c =? ZERO) || (c =? ONE)) step_str.

Section Normalize.
Context {CM : CaseMapping}.

(** The first loop: one entry per key of [INSTRUMENT_MAP], with a warning
    printed for each step string that is replaced. *)
Definition build_steps (name : str) (raw_steps : dict str)
  : dict str * list Msg :=
  fold_left
    (fun (acc : dict str * list Msg) (item : str * str) =>
       let '(steps, out) := acc in
       let '(pdf_key, track_id) := item in
       let step_str := default ZEROS16 (dict_get pdf_key raw_steps) in
       if valid_step_str step_str
       then (dict_set track_id step_str steps, out)
       else (dict_set track_id ZEROS16 steps,
             out ++ [MsgInvalidSteps pdf_key name step_str]))
    INSTRUMENT_MAP ([], []).

(** The second loop: every track id is present afterwards. *)
Definition ensure_tracks (steps : dict str) : dict str :=
  fold_left
    (fun steps tid => if dict_mem tid steps then steps
                      else dict_set tid ZEROS16 steps)
    ALL_TRACK_IDS steps.

(** The result is [None] when the pattern is skipped; the second component
    is what was printed. *)
Definition normalize_pattern (raw : RawPattern) : option Pattern * list Msg :=
  let name := default [] (raw_name raw) in
  let grid_width := default 0%Z (raw_grid_width raw) in
  if negb (grid_width =? 16)%Z then (None, [])
  else if contains (py "break") (str_lower name) then (None, [])
  else
    let pattern_id := name_to_id name in
    match pattern_id with
    | [] => (None, [])
    | _ :: _ =>
        let display_name := clean_name name in
        let raw_steps := default [] (raw_steps raw) in
        let '(steps, out) := build_steps name raw_steps in
        let steps := ensure_tracks steps in
        (Some {| pattern_id := pattern_id;
                 display_name := display_name;
                 steps := steps |}, out)
    end.
End Normalize.

(** ** Files, exceptions and the external collaborators *)

Definition bytes := list Byte.byte.

(** The exception classes the script can meet.  [ValueError] stands for the
    class and its subclasses other than [JSONDecodeError], which is listed
    because the [except] clause of [process_page] names it. *)
Inductive ExnClass :=
| ValueError
| JSONDecodeError
| RuntimeError
| CalledProcessError
| FileNotFoundError
| OtherError.

Record Exn := {
  exn_class : ExnClass;
  exn_text : str          (* [str(e)] *)
}.

(** [scripts/parsed_patterns]: [page_NNN.json] holds the list of patterns
    written for page [NNN], [page_NNN.error] the text of an error. *)
Record CacheDir := {
  page_json : gmap nat (list Pattern);
  page_error : gmap nat str
}.

(** The part of the file system the script touches.  A JSON file is kept as
    the value it decodes to: the script writes with [json.dumps] only, and
    equal values are written as equal text.  A file that some other hand left
    in a state that does not decode to such a value is not represented. *)
Record FS := {
  pdf_present : bool;                      (* the source PDF *)
  output_dir : option CacheDir;            (* [OUTPUT_DIR], when it exists *)
  patterns_json : option (list Pattern)    (* ["patterns"] of [PATTERNS_JSON] *)
}.

Inductive ToolResult :=
| ToolFailed (text : str)            (* non-zero exit status *)
| ToolOutput (pngs : list bytes).    (* the [*.png] files left behind *)

Inductive Recognition :=
| Parsed (patterns : list DrumPattern)   (* [response.parsed.patterns] *)
| Failed (e : Exn).

(** What the script meets outside its own files: [pdftoppm], the environment
    variable [GEMINI_API_KEY], the constructor [genai.Client] (which raises
    or yields a client) and the recognition service behind the client. *)
Record World := {
  pdftoppm : nat -> ToolResult;
  GEMINI_API_KEY : option str;              (* [os.environ.get("GEMINI_API_KEY")] *)
  genai_Client : option str -> option Exn;  (* the exception of [genai.Client(api_key=...)] *)
  generate_content : bytes -> Recognition
}.

Inductive Event :=
| EvPrint (m : Msg)
| EvRender (page_num : nat)          (* [subprocess.run(["pdftoppm", ...])] *)
| EvRecognize (image_data : bytes)   (* [client.models.generate_content] *)
| EvSleep (seconds : nat).

(** How a call ends: it returns, an exception leaves it, or [sys.exit]. *)
Inductive Result (A : Type) :=
| Return (a : A)
| Raise (e : Exn)
| Exit (code : Z).
Arguments Return {A} a.
Arguments Raise {A} e.
Arguments Exit {A} code.

(** A computation reads and writes the file system and leaves a trace. *)
Definition M (A : Type) := FS -> Result A * FS * list Event.

Definition ret {A} (a : A) : M A := fun fs => (Return a, fs, []).

Definition bind {A B} (m : M A) (k : A -> M B) : M B := fun fs =>
  match m fs with
  | (Return a, fs1, t1) => let '(r, fs2, t2) := k a fs1 in (r, fs2, t1 ++ t2)
  | (Raise e, fs1, t1) => (Raise e, fs1, t1)
  | (Exit c, fs1, t1) => (Exit c, fs1, t1)
  end.

#[global] Instance M_ret : MRet M := @ret.
#[global] Instance M_bind : MBind M := fun A B k m => bind m k.
#[global] Instance M_fmap : FMap M := fun A B f m => bind m (fun a => ret (f a)).

Definition raise {A} (e : Exn) : M A := fun fs => (Raise e, fs, []).
Definition sys_exit {A} (code : Z) : M A := fun fs => (Exit code, fs, []).
Definition emit (e : Event) : M unit := fun fs => (Return tt, fs, [e]).
Definition print (m : Msg) : M unit := emit (EvPrint m).
Definition get_fs : M FS := fun fs => (Return fs, fs, []).
Definition put_fs (fs : FS) : M unit := fun _ => (Return tt, fs, []).

(** [try: body except (classes): handler] *)
Definition try_except {A} (body : M A) (caught : ExnClass -> bool)
    (handler : Exn -> M A) : M A := fun fs =>
  match body fs with
  | (Raise e, fs1, t1) =>
      if caught (exn_class e)
      then let '(r, fs2, t2) := handler e fs1 in (r, fs2, t1 ++ t2)
      else (Raise e, fs1, t1)
  | other => other
  end.

Definition decimal (n : nat) : str := py (NilEmpty.string_of_uint (Nat.to_uint n)).

(** [f"{page_num:03d}"] *)
Definition pad3 (n : nat) : str :=
  let d := decimal n in repeat ZERO (3 - length d) ++ d.

Definition output_file_name (page_num : nat) : str :=
  py "page_" ++ pad3 page_num ++ py ".json".

Definition no_such_file : Exn :=
  {| exn_class := FileNotFoundError; exn_text := py "No such file or directory" |}.

Definition with_output_dir (fs : FS) (d : CacheDir) : FS :=
  {| pdf_present := pdf_present fs;
     output_dir := Some d;
     patterns_json := patterns_json fs |}.

Definition with_patterns_json (fs : FS) (patterns : list Pattern) : FS :=
  {| pdf_present := pdf_present fs;
     output_dir := output_dir fs;
     patterns_json := Some patterns |}.

(** The content of [page_NNN.json], when the file exists. *)
Definition output_file (fs : FS) (page_num : nat) : option (list Pattern) :=
  match output_dir fs with
  | Some d => page_json d !! page_num
  | None => None
  end.

(** [output_file.exists()] *)
Definition output_file_exists (page_num : nat) : M bool :=
  fs ← get_fs;
  ret (match output_file fs page_num with
       | Some _ => true
       | None => false
       end).

(** [json.loads(output_file.read_text())] *)
Definition read_output_file (page_num : nat) : M (list Pattern) :=
  fs ← get_fs;
  match output_file fs page_num with
  | Some patterns => ret patterns
  | None => raise no_such_file
  end.

(** [output_file.write_text(json.dumps(patterns, indent=2) + "\n")] *)
Definition write_output_file (page_num : nat) (patterns : list Pattern) : M unit :=
  fs ← get_fs;
  match output_dir fs with
  | Some d =>
      put_fs (with_output_dir fs
                {| page_json := <[page_num := patterns]> (page_json d);
                   page_error := page_error d |})
  | None => raise no_such_file
  end.

(** [error_file.write_text(str(e))] *)
Definition write_error_file (page_num : nat) (text : str) : M unit :=
  fs ← get_fs;
  match output_dir fs with
  | Some d =>
      put_fs (with_output_dir fs
                {| page_json := page_json d;
                   page_error := <[page_num := text]> (page_error d) |})
  | None => raise no_such_file
  end.

(** [OUTPUT_DIR.mkdir(parents=True, exist_ok=True)] *)
Definition mkdir_output_dir : M unit :=
  fs ← get_fs;
  match output_dir fs with
  | Some _ => ret tt
  | None =>
      put_fs (with_output_dir fs {| page_json := ∅; page_error := ∅ |})
  end.

(** ** The page driver *)

Section Driver.
Context {CM : CaseMapping} (W : World).

Definition render_page (page_num : nat) : M bytes :=
  emit (EvRender page_num) ;;
  match pdftoppm W page_num with
  | ToolFailed text => raise {| exn_class := CalledProcessError; exn_text := text |}
  | ToolOutput [] =>
      raise {| exn_class := RuntimeError;
               exn_text := py "pdftoppm produced no output for page "
                           ++ decimal page_num |}
  | ToolOutput (png :: _) => ret png
  end.

(** [{inst.instrument_id: inst.hits for inst in p.instruments}] *)
Definition steps_of_instruments (l : list InstrumentPattern) : dict str :=
  fold_left (fun d inst => dict_set (instrument_id inst) (hits inst) d) l [].

Definition raw_of_drum_pattern (p : DrumPattern) : RawPattern :=
  {| raw_name := Some (dp_name p);
     raw_grid_width := Some (dp_grid_width p);
     raw_steps := Some (steps_of_instruments (instruments p)) |}.

Definition extract_patterns_from_image (image_data : bytes) : M (list RawPattern) :=
  emit (EvRecognize image_data) ;;
  match generate_content W image_data with
  | Failed e => raise e
  | Parsed patterns => ret (map raw_of_drum_pattern patterns)
  end.

(** The loop "normalize and filter" of [process_page], with what
    [normalize_pattern] prints on the way. *)
Fixpoint normalize_all (raw_patterns : list RawPattern) : M (list Pattern) :=
  match raw_patterns with
  | [] => ret []
  | raw :: rest =>
      let '(normalized, out) := normalize_pattern raw in
      fold_right (fun m k => print m ;; k) (ret tt) out ;;
      patterns ← normalize_all rest;
      ret (match normalized with
           | Some p => p :: patterns
           | None => patterns
           end)
  end.

(** The exception classes of [except (ValueError, json.JSONDecodeError)]. *)
Definition caught_by_process_page (c : ExnClass) : bool :=
  match c with
  | ValueError | JSONDecodeError => true
  | _ => false
  end.

Definition process_page (page_num : nat) : M (list Pattern) :=
  done ← output_file_exists page_num;
  if done : bool then
    print (MsgAlreadyDone page_num) ;;
    read_output_file page_num
  else
    print (MsgRendering page_num) ;;
    image_data ← render_page page_num;
    print (MsgSending page_num) ;;
    attempt ← try_except
      (Some <$> extract_patterns_from_image image_data)
      caught_by_process_page
      (fun e =>
         print (MsgPageError page_num (exn_text e)) ;;
         write_error_file page_num (exn_text e) ;;
         ret None);
    match attempt with
    | None => ret []
    | Some raw_patterns =>
        patterns ← normalize_all raw_patterns;
        write_output_file page_num patterns ;;
        let names := map display_name patterns in
        let skipped := (length raw_patterns - length patterns)%nat in
        print (MsgPagePatterns page_num (length patterns) skipped names) ;;
        ret patterns
    end.

Fixpoint parse_pages (pages : list nat) (total_patterns : nat) : M nat :=
  match pages with
  | [] => ret total_patterns
  | page_num :: rest =>
      patterns ← process_page page_num;
      emit (EvSleep 1) ;;
      parse_pages rest (total_patterns + length patterns)%nat
  end.

(** [client = genai.Client(api_key=os.environ.get("GEMINI_API_KEY"))] *)
Definition new_client : M unit :=
  match genai_Client W (GEMINI_API_KEY W) with
  | Some e => raise e
  | None => ret tt
  end.

(** [do_parse]; [start] and [end_] are what the [--pages] argument (or the
    defaults 9 and 97) gave. *)
Definition do_parse (start end_ : nat) : M unit :=
  fs ← get_fs;
  if negb (pdf_present fs) then
    print MsgPdfNotFound ;;
    sys_exit 1
  else
    mkdir_output_dir ;;
    new_client ;;
    total_patterns ← parse_pages (seq start (end_ + 1 - start)) 0%nat;
    print (MsgParseDone total_patterns start end_).
End Driver.

(** ** The catalog merger *)

(** [sorted(OUTPUT_DIR.glob("page_*.json"))]: the page files in the order of
    their names, each with the list it decodes to. *)
Definition page_files (d : CacheDir) : list (nat * list Pattern) :=
  py_sorted (fun pf => output_file_name (fst pf)) (map_to_list (page_json d)).

(** [{p["id"]: p for p in patterns}], continued from [d]. *)
Definition index_by_id (d : dict Pattern) (patterns : list Pattern) : dict Pattern :=
  fold_left (fun d pattern => dict_set (pattern_id pattern) pattern d) patterns d.

(** The loop that collects the patterns of all page files, later pages
    overwriting earlier ones. *)
Definition collect_parsed (files : list (nat * list Pattern)) : dict Pattern :=
  fold_left (fun parsed pf => index_by_id parsed (snd pf)) files [].

(** [set(d.keys())] *)
Definition key_set {V} (d : dict V) : gset str := list_to_set (dict_keys d).

(** [sorted(ids)] for a set of strings. *)
Definition sorted_ids (ids : gset str) : list str :=
  py_sorted (fun k => k) (elements ids).

(** [if ids: print(...)] *)
Definition print_unless_empty (ids : gset str) (m : list str -> Msg) : M unit :=
  if decide (ids = ∅) then ret tt else print (m (sorted_ids ids)).

Definition do_merge (dry_run : bool) : M unit :=
  fs ← get_fs;
  match output_dir fs with
  | None => print MsgNoOutputDir ;; sys_exit 1
  | Some d =>
      let page_files := page_files d in
      match page_files with
      | [] => print MsgNoPageFiles ;; sys_exit 1
      | _ :: _ =>
          let parsed := collect_parsed page_files in
          print (MsgFound (length parsed) (length page_files)) ;;
          match patterns_json fs with
          | None => raise no_such_file
          | Some existing_data =>
              let existing_patterns := index_by_id [] existing_data in
              let new_ids := key_set parsed ∖ key_set existing_patterns in
              let updated_ids := key_set parsed ∩ key_set existing_patterns in
              if dry_run then
                print MsgDryRun ;;
                print (MsgWouldAdd (size new_ids)) ;;
                print (MsgWouldUpdate (size updated_ids)) ;;
                print_unless_empty new_ids MsgNew ;;
                print_unless_empty updated_ids MsgUpdated
              else
                let merged := dict_update existing_patterns parsed in
                let sorted_patterns := py_sorted pattern_id (dict_values merged) in
                put_fs (with_patterns_json fs sorted_patterns) ;;
                print (MsgWrote (length sorted_patterns)) ;;
                print (MsgAdded (size new_ids)) ;;
                print (MsgUpdatedCount (size updated_ids)) ;;
                print (MsgKept (length existing_patterns - size updated_ids)%nat)
          end
      end
  end.

(** * Vocabulary of the properties *)

(** The alphabet of an identifier, spelled out. *)
Definition slug_alphabet (c : char) : Prop :=
  (N_of_ascii "a" <= c <= N_of_ascii "z")
  \/ (N_of_ascii "0" <= c <= N_of_ascii "9")
  \/ c = HYPHEN.

(** A string with two hyphens in a row somewhere. *)
Definition doubled_hyphen (s : str) : Prop :=
  exists l1 l2, s = l1 ++ HYPHEN :: HYPHEN :: l2.

Fixpoint no_doubled (s : str) : Prop :=
  match s with
  | x :: ((y :: _) as r) => ~ (x = HYPHEN /\ y = HYPHEN) /\ no_doubled r
  | _ => True
  end.

(** A step string of the catalog: sixteen characters, each ["0"] or ["1"]. *)
Definition bit_string16 (s : str) : Prop :=
  length s = 16%nat /\ Forall (fun c => c = ZERO \/ c = ONE) s.

(** A step string of the raw record that is missing, of the wrong length or
    over the wrong alphabet. *)
Definition malformed_step (o : option str) : Prop :=
  match o with
  | None => True
  | Some s => length s <> 16%nat \/ Exists (fun c => c <> ZERO /\ c <> ONE) s
  end.

(** The step string the first loop stores for a label. *)
Definition repaired_step (raw_steps : dict str) (pdf_key : str) : str :=
  let step_str := default ZEROS16 (dict_get pdf_key raw_steps) in
  if valid_step_str step_str then step_str else ZEROS16.

(** A record as the recognition service returns it for the grid "Rock: 3",
    with one row too short and ten rows missing. *)
Definition rock_3 : RawPattern :=
  {| raw_name := Some (py "Rock: 3");
     raw_grid_width := Some 16%Z;
     raw_steps := Some [(py "BD", py "1000100010001000"); (py "SD", py "12")] |}.

Ltac run_monad :=
  unfold mbind, mret, fmap, M_bind, M_ret, M_fmap, bind, ret, raise, sys_exit,
    print, emit, get_fs, put_fs, try_except; cbn beta iota.

(** What the normalising loop of [process_page] keeps and what it prints. *)
Definition normalized_patterns {CM : CaseMapping} (raws : list RawPattern)
  : list Pattern :=
  omap (fun raw => fst (normalize_pattern raw)) raws.
Definition normalize_output {CM : CaseMapping} (raws : list RawPattern)
  : list Event :=
  map EvPrint (concat (map (fun raw => snd (normalize_pattern raw)) raws)).

(** The page has a success cache file. *)
Definition cached (fs : FS) (page_num : nat) : Prop :=
  is_Some (output_file fs page_num).

Definition is_external_call (e : Event) : bool :=
  match e with
  | EvRender _ | EvRecognize _ => true
  | _ => false
  end.

Definition run_result {A} (r : Result A * FS * list Event) : Result A := fst (fst r).
Definition run_fs {A} (r : Result A * FS * list Event) : FS := snd (fst r).
Definition run_trace {A} (r : Result A * FS * list Event) : list Event := snd r.

(** The text of the page's error marker, when there is one. *)
Definition error_text (fs : FS) (page_num : nat) : option str :=
  match output_dir fs with
  | Some d => page_error d !! page_num
  | None => None
  end.

(** Sample inputs: a one-byte image, a recognition service that answers with
    an undecodable response, a renderer that leaves no file behind. *)
Definition sample_png : bytes := [Byte.x89].

Definition undecodable : Exn :=
  {| exn_class := JSONDecodeError; exn_text := py "Expecting value" |}.

(** A constructor that wants a key, and a key for it. *)
Definition missing_key : Exn :=
  {| exn_class := ValueError; exn_text := py "Missing key inputs argument!" |}.

Definition keyed_client (api_key : option str) : option Exn :=
  match api_key with
  | Some _ => None
  | None => Some missing_key
  end.

Definition sample_key : option str := Some (py "sample-key").

Definition failing_recognition : World :=
  {| pdftoppm := fun _ => ToolOutput [sample_png];
     GEMINI_API_KEY := sample_key;
     genai_Client := keyed_client;
     generate_content := fun _ => Failed undecodable |}.

Definition failing_renderer : World :=
  {| pdftoppm := fun _ => ToolOutput [];
     GEMINI_API_KEY := sample_key;
     genai_Client := keyed_client;
     generate_content := fun _ => Parsed [] |}.

Definition rock_3_pattern : Pattern :=
  {| pattern_id := py "rock-3"; display_name := py "Rock 3";
     steps := map (fun tid => (tid, ZEROS16)) ALL_TRACK_IDS |}.

(** Page 9 done, page 10 failed in an earlier run, page 11 not seen yet. *)
Definition sample_fs : FS :=
  {| pdf_present := true;
     output_dir := Some {| page_json := {[ 9%nat := [rock_3_pattern] ]};
                           page_error := {[ 10%nat := py "Expecting value" ]} |};
     patterns_json := Some [] |}.

(** What [process_page] does with the image of a page. *)
Definition recognize_rendered {CM : CaseMapping} (W : World) (page_num : nat)
    (image_data : bytes) : M (list Pattern) :=
  print (MsgSending page_num) ;;
  attempt ← try_except
    (Some <$> extract_patterns_from_image W image_data)
    caught_by_process_page
    (fun e =>
       print (MsgPageError page_num (exn_text e)) ;;
       write_error_file page_num (exn_text e) ;;
       ret None);
  match attempt with
  | None => ret []
  | Some raw_patterns =>
      patterns ← normalize_all raw_patterns;
      write_output_file page_num patterns ;;
      let names := map display_name patterns in
      let skipped := (length raw_patterns - length patterns)%nat in
      print (MsgPagePatterns page_num (length patterns) skipped names) ;;
      ret patterns
  end.

(** Processing the page cannot fail, or fails in the way [process_page]
    catches: the page is cached, or the renderer yields an image and the
    recognition service answers or raises a [ValueError]. *)
Definition only_caught_failures (W : World) (fs : FS) (page_num : nat) : Prop :=
  cached fs page_num
  \/ exists png rest,
       pdftoppm W page_num = ToolOutput (png :: rest)
       /\ match generate_content W png with
          | Parsed _ => True
          | Failed e => caught_by_process_page (exn_class e) = true
          end.

(** [genai.Client] yields a client. *)
Definition client_constructed (W : World) : Prop :=
  genai_Client W (GEMINI_API_KEY W) = None.

(** The failures of a page that [process_page] has no handler for, with the
    exception each raises: [pdftoppm] ends with a non-zero status, it leaves no
    image behind, or the recognition call raises something that is not a
    [ValueError]. *)
Definition uncaught_failure (W : World) (page_num : nat) (e : Exn) : Prop :=
  (exists text,
     pdftoppm W page_num = ToolFailed text
     /\ e = {| exn_class := CalledProcessError; exn_text := text |})
  \/ (pdftoppm W page_num = ToolOutput []
      /\ e = {| exn_class := RuntimeError;
                exn_text := py "pdftoppm produced no output for page "
                            ++ decimal page_num |})
  \/ (exists png rest,
        pdftoppm W page_num = ToolOutput (png :: rest)
        /\ generate_content W png = Failed e
        /\ caught_by_process_page (exn_class e) = false).

Definition with_raw_steps (raw : RawPattern) (st : option (dict str)) : RawPattern :=
  {| raw_name := raw_name raw;
     raw_grid_width := raw_grid_width raw;
     raw_steps := st |}.

(** Neighbours are in order: the later one is not below the earlier one. *)
Fixpoint in_order {A : Type} (key : A -> str) (l : list A) : Prop :=
  match l with
  | x :: ((y :: _) as r) => str_ltb (key y) (key x) = false /\ in_order key r
  | _ => True
  end.

(** Every key of the dictionary is the id of its pattern. *)
Definition keyed_by_id (d : dict Pattern) : Prop :=
  Forall (fun kv => fst kv = pattern_id (snd kv)) d.

(** [merged] of [do_merge], and the list a merge that is not a dry run
    writes to [patterns.json]. *)
Definition merged_dict (parsed : dict Pattern) (existing_data : list Pattern)
  : dict Pattern :=
  dict_update (index_by_id [] existing_data) parsed.
Definition merged_catalog (parsed : dict Pattern) (existing_data : list Pattern)
  : list Pattern :=
  py_sorted pattern_id (dict_values (merged_dict parsed existing_data)).

(** What a merge prints after the line "Found ...". *)
Definition listed (ids : gset str) (m : list str -> Msg) : list Event :=
  if decide (ids = ∅) then [] else [EvPrint (m (sorted_ids ids))].

Definition dry_run_report (parsed existing_patterns : dict Pattern) : list Event :=
  let new_ids := key_set parsed ∖ key_set existing_patterns in
  let updated_ids := key_set parsed ∩ key_set existing_patterns in
  [EvPrint MsgDryRun; EvPrint (MsgWouldAdd (size new_ids));
   EvPrint (MsgWouldUpdate (size updated_ids))]
  ++ listed new_ids MsgNew ++ listed updated_ids MsgUpdated.

Definition merge_report (parsed existing_patterns : dict Pattern) (written : nat)
  : list Event :=
  let new_ids := key_set parsed ∖ key_set existing_patterns in
  let updated_ids := key_set parsed ∩ key_set existing_patterns in
  [EvPrint (MsgWrote written); EvPrint (MsgAdded (size new_ids));
   EvPrint (MsgUpdatedCount (size updated_ids));
   EvPrint (MsgKept (length existing_patterns - size updated_ids))].

(** The ids a trace lists as new, and as updated. *)
Definition reported_new (tr : list Event) : list str :=
  flat_map (fun e => match e with EvPrint (MsgNew ids) => ids | _ => [] end) tr.
Definition reported_updated (tr : list Event) : list str :=
  flat_map (fun e => match e with EvPrint (MsgUpdated ids) => ids | _ => [] end) tr.

(** Some page file holds a pattern with this id. *)
Definition in_page_results (fs : FS) (k : str) : Prop :=
  exists d page_num patterns p,
    output_dir fs = Some d /\ page_json d !! page_num = Some patterns
    /\ p ∈ patterns /\ pattern_id p = k.

(** The catalog holds a pattern with this id. *)
Definition in_catalog (catalog : list Pattern) (k : str) : Prop :=
  exists p, p ∈ catalog /\ pattern_id p = k.

(** The scenario of the design document: the catalog has ["rock-3"], the
    page results have a changed ["rock-3"] and a ["break-2"]. *)
Definition rock_3_changed : Pattern :=
  {| pattern_id := py "rock-3"; display_name := py "Rock 3";
     steps := map (fun tid => (tid, py "1000100010001000")) ALL_TRACK_IDS |}.

Definition break_2_pattern : Pattern :=
  {| pattern_id := py "break-2"; display_name := py "Break 2";
     steps := map (fun tid => (tid, ZEROS16)) ALL_TRACK_IDS |}.

Definition scenario_fs : FS :=
  {| pdf_present := true;
     output_dir := Some {| page_json := {[ 9%nat := [rock_3_changed; break_2_pattern] ]};
                           page_error := ∅ |};
     patterns_json := Some [rock_3_pattern] |}.

(** The letters and digits of an identifier: the class [a-z0-9]. *)
Definition is_alnum (c : char) : bool := in_range 97 122 c || in_range 48 57 c.

(** A string is an identifier already: over the alphabet of identifiers,
    with no hyphen at either end and no two hyphens in a row. *)
Definition slug_shaped (s : str) : Prop :=
  Forall slug_alphabet s
  /\ head s <> Some HYPHEN
  /\ last s <> Some HYPHEN
  /\ ~ doubled_hyphen s.

(** The rows of the raw record that are present but not a valid step string,
    in the order of [INSTRUMENT_MAP]. *)
Definition invalid_rows (raw_steps : dict str) (l : dict str) : list (str * str) :=
  omap (fun item : str * str =>
          match dict_get (fst item) raw_steps with
          | Some s => if valid_step_str s then None else Some (fst item, s)
          | None => None
          end) l.

(** [needle] occurs in [s]. *)
Definition substring (needle s : str) : Prop :=
  exists pre post, s = pre ++ needle ++ post.

(** The last element of a list whose key is [k]: what a dictionary built
    from the list by successive assignments holds for [k]. *)
Definition last_with_key {A} (key : A -> str) (k : str) (l : list A) : option A :=
  last (List.filter (fun x => str_eqb (key x) k) l).

(** The catalog's entry for an id. *)
Definition find_by_id (k : str) (catalog : list Pattern) : option Pattern :=
  List.find (fun p => str_eqb (pattern_id p) k) catalog.


(** Processing the page cannot fail: it is cached, or the renderer yields an
    image and the recognition service answers. *)
Definition page_succeeds (W : World) (fs : FS) (page_num : nat) : Prop :=
  cached fs page_num
  \/ exists png rest dps,
       pdftoppm W page_num = ToolOutput (png :: rest)
       /\ generate_content W png = Parsed dps.

(** What a scan prints and does for a range of cached pages. *)
Definition cached_scan_trace (pages : list nat) : list Event :=
  flat_map (fun n => [EvPrint (MsgAlreadyDone n); EvSleep 1]) pages.

(** A recognition service that answers with one grid. *)
Definition rock_3_answer : list DrumPattern :=
  [{| dp_name := py "Rock: 3"; dp_grid_width := 16;
      instruments := [{| instrument_id := py "BD";
                         hits := py "1000100010001000" |}] |}].

Definition answering : World :=
  {| pdftoppm := fun _ => ToolOutput [sample_png];
     GEMINI_API_KEY := sample_key;
     genai_Client := keyed_client;
     generate_content := fun _ => Parsed rock_3_answer |}.

(** A display name in normal form: whitespace is the space character only,
    never at either end and never twice in a row. *)
Definition doubled_space (s : str) : Prop :=
  exists l1 l2, s = l1 ++ SPACE :: SPACE :: l2.

Definition only_plain_spaces (s : str) : Prop :=
  Forall (fun c => is_space c = true -> c = SPACE) s.

Definition space_normal (s : str) : Prop :=
  only_plain_spaces s
  /\ head s <> Some SPACE
  /\ last s <> Some SPACE
  /\ ~ doubled_space s.

(** A word: not empty and without whitespace. *)
Definition is_word (w : str) : Prop :=
  w <> [] /\ Forall (fun c => is_space c = false) w.

Fixpoint no_doubled_space (s : str) : Prop :=
  match s with
  | x :: ((y :: _) as r) => ~ (x = SPACE /\ y = SPACE) /\ no_doubled_space r
  | _ => True
  end.

(** [fs'] has everything a scan must not touch: the PDF, the catalog and
    every cache file of [fs], with its content. *)
Definition keeps_cache (fs fs' : FS) : Prop :=
  pdf_present fs' = pdf_present fs
  /\ patterns_json fs' = patterns_json fs
  /\ forall m patterns,
       output_file fs m = Some patterns -> output_file fs' m = Some patterns.

(** The state of [collapse_hyphens_from] after it has read [s]: whether the
    last character read was a hyphen. *)
Definition after_hyphen (prev : bool) (s : str) : bool :=
  match last s with
  | Some c => c =? HYPHEN
  | None => prev
  end.

(** * Properties *)

(** ** The script's own examples *)

Example name_to_id_afro_cub :
  name_to_id (CM := ascii_case) (py "Afro-cub: 1") = py "afro-cub-1".
Proof. reflexivity. Qed.

Example name_to_id_rock :
  name_to_id (CM := ascii_case) (py "Rock: 3") = py "rock-3".
Proof. reflexivity. Qed.

Example name_to_id_new_wave :
  name_to_id (CM := ascii_case) (py "New Wave: 1") = py "new-wave-1".
Proof. reflexivity. Qed.

Example clean_name_afro_cub :
  clean_name (CM := ascii_case) (py "Afro-cub: 1") = py "Afro-Cub 1".
Proof. reflexivity. Qed.

(** ** Identifiers *)

Lemma is_slug_char_spec c : is_slug_char c = true <-> slug_alphabet c.
Proof.
  unfold is_slug_char, slug_alphabet, in_range, HYPHEN. simpl N_of_ascii.
  rewrite !orb_true_iff, !andb_true_iff, !N.leb_le, N.eqb_eq. tauto.
Qed.

Lemma sub_non_slug_alphabet s : Forall slug_alphabet (sub_non_slug s).
Proof.
  unfold sub_non_slug. apply Forall_map, Forall_forall. intros c _. simpl.
  destruct (is_slug_char c) eqn:E.
  - by apply is_slug_char_spec.
  - right; right; reflexivity.
Qed.

Lemma no_doubled_sound s : no_doubled s -> ~ doubled_hyphen s.
Proof.
  intros H [l1 [l2 ->]]. induction l1 as [|a l1 IH]; simpl in H.
  - destruct H as [H _]. apply H; done.
  - destruct (l1 ++ HYPHEN :: HYPHEN :: l2) eqn:E.
    + destruct l1; discriminate.
    + apply IH. apply H.
Qed.

Lemma collapse_hyphens_from_alphabet (P : char -> Prop) prev s :
  Forall P s -> Forall P (collapse_hyphens_from prev s).
Proof.
  intros H. revert prev. induction H as [|c r Hc _ IH]; intros prev; simpl.
  - constructor.
  - destruct (N.eqb_spec c HYPHEN) as [->|_].
    + destruct prev; [apply IH | constructor; [done | apply IH]].
    + constructor; [done | apply IH].
Qed.

Lemma collapse_hyphens_from_head s :
  head (collapse_hyphens_from true s) <> Some HYPHEN.
Proof.
  induction s as [|c r IH]; simpl; [done|].
  destruct (N.eqb_spec c HYPHEN) as [->|Hc]; [done|].
  simpl. congruence.
Qed.

Lemma collapse_hyphens_from_no_doubled prev s :
  no_doubled (collapse_hyphens_from prev s).
Proof.
  revert prev. induction s as [|c r IH]; intros prev; simpl; [done|].
  destruct (N.eqb_spec c HYPHEN) as [->|Hc].
  - destruct prev; [apply IH|].
    pose proof (IH true) as Hr. pose proof (collapse_hyphens_from_head r) as Hh.
    destruct (collapse_hyphens_from true r) as [|y t]; [done|].
    split; [|done]. intros [_ ->]. by apply Hh.
  - pose proof (IH false) as Hr.
    destruct (collapse_hyphens_from false r) as [|y t]; [done|].
    split; [|done]. intros [-> _]. by apply Hc.
Qed.

Lemma lstrip_char_suffix c s : exists p, s = p ++ lstrip_char c s.
Proof.
  induction s as [|x r [p Hp]]; simpl.
  - by exists [].
  - destruct (x =? c); [| by exists []].
    exists (x :: p). simpl. by f_equal.
Qed.

Lemma lstrip_char_head c s : head (lstrip_char c s) <> Some c.
Proof.
  induction s as [|x r IH]; simpl; [done|].
  destruct (N.eqb_spec x c) as [->|Hx]; [done|].
  simpl. congruence.
Qed.

Lemma rstrip_char_prefix c s : exists q, s = rstrip_char c s ++ q.
Proof.
  unfold rstrip_char. destruct (lstrip_char_suffix c (rev s)) as [p Hp].
  exists (rev p). rewrite <- rev_app_distr, <- Hp. by rewrite rev_involutive.
Qed.

Lemma last_rev (s : str) : last (rev s) = head s.
Proof. destruct s as [|x r]; [done|]. simpl. by rewrite last_snoc. Qed.

Lemma rstrip_char_last c s : last (rstrip_char c s) <> Some c.
Proof. unfold rstrip_char. rewrite last_rev. apply lstrip_char_head. Qed.

Lemma doubled_hyphen_app l s r : doubled_hyphen s -> doubled_hyphen (l ++ s ++ r).
Proof.
  intros [l1 [l2 ->]]. exists (l ++ l1), (l2 ++ r).
  by rewrite <- !app_assoc.
Qed.

(** What stripping keeps of a string: a middle part of it, with neither end a
    hyphen. *)
Lemma strip_char_infix c s :
  exists p q, s = p ++ strip_char c s ++ q.
Proof.
  unfold strip_char. destruct (lstrip_char_suffix c s) as [p Hp].
  destruct (rstrip_char_prefix c (lstrip_char c s)) as [q Hq].
  exists p, q. by rewrite <- Hq.
Qed.

Lemma strip_char_head c s : head (strip_char c s) <> Some c.
Proof.
  unfold strip_char. destruct (rstrip_char_prefix c (lstrip_char c s)) as [q Hq].
  pose proof (lstrip_char_head c s) as Hh. rewrite Hq in Hh.
  destruct (rstrip_char c (lstrip_char c s)); [done|]. exact Hh.
Qed.

(** C7. For every input string and whatever the case tables are, the
    identifier [name_to_id] returns consists of lowercase letters, digits and
    hyphens only, neither starts nor ends with a hyphen, and has no two
    hyphens in a row. *)
Theorem name_to_id_is_slug (CM : CaseMapping) (name : str) :
  Forall slug_alphabet (name_to_id name)
  /\ head (name_to_id name) <> Some HYPHEN
  /\ last (name_to_id name) <> Some HYPHEN
  /\ ~ doubled_hyphen (name_to_id name).
Proof.
  unfold name_to_id.
  set (t := collapse_hyphens (sub_non_slug (sub_colon HYPHEN (str_lower name)))).
  assert (Ht : Forall slug_alphabet t).
  { apply collapse_hyphens_from_alphabet, sub_non_slug_alphabet. }
  assert (Hd : ~ doubled_hyphen t).
  { apply no_doubled_sound, collapse_hyphens_from_no_doubled. }
  destruct (strip_char_infix HYPHEN t) as [p [q Hpq]].
  repeat split.
  - rewrite Hpq in Ht. apply Forall_app in Ht as [_ Ht].
    by apply Forall_app in Ht as [Ht _].
  - apply strip_char_head.
  - apply rstrip_char_last.
  - intros H. apply Hd. rewrite Hpq. by apply doubled_hyphen_app.
Qed.

(** ** A colon in the label *)

Lemma is_space_not_slug c : is_space c = true -> is_slug_char c = false.
Proof.
  unfold is_space, is_slug_char, in_range, HYPHEN.
  rewrite !orb_true_iff, !andb_true_iff, !N.leb_le, !N.eqb_eq. intros H.
  rewrite !orb_false_iff, !andb_false_iff, !N.leb_gt, N.eqb_neq. lia.
Qed.

(** The colon rule changes nothing in the end: a colon and the whitespace
    after it would become hyphens in the next step, and collapse to one. *)
Lemma collapse_sub_colon_from s : forall b p,
  (b = true -> p = true) ->
  collapse_hyphens_from p (sub_non_slug (sub_colon_from HYPHEN b s))
  = collapse_hyphens_from p (sub_non_slug s).
Proof.
  induction s as [|c r IH]; intros b p Hbp; [done|].
  cbn [sub_colon_from]. destruct (b && is_space c) eqn:Hs.
  - apply andb_true_iff in Hs as [-> Hs]. rewrite (Hbp eq_refl).
    cbn [sub_non_slug map collapse_hyphens_from].
    rewrite (is_space_not_slug c Hs). change (HYPHEN =? HYPHEN) with true.
    cbn iota. by apply IH.
  - destruct (N.eqb_spec c COLON) as [->|Hc].
    + cbn [sub_non_slug map collapse_hyphens_from].
      change (is_slug_char HYPHEN) with true. change (is_slug_char COLON) with false.
      cbn iota. change (HYPHEN =? HYPHEN) with true. cbn iota.
      fold (sub_non_slug (sub_colon_from HYPHEN true r)). fold (sub_non_slug r).
      rewrite (IH true true) by done. reflexivity.
    + cbn [sub_non_slug map collapse_hyphens_from].
      fold (sub_non_slug (sub_colon_from HYPHEN false r)). fold (sub_non_slug r).
      destruct (_ =? HYPHEN); [destruct p|]; by rewrite IH.
Qed.

Lemma after_hyphen_cons p c s :
  after_hyphen p (c :: s) = after_hyphen (c =? HYPHEN) s.
Proof.
  unfold after_hyphen. destruct s as [|y t]; [done|].
  change (last (c :: y :: t)) with (last (y :: t)).
  destruct (last (y :: t)) eqn:El; [done | by apply last_None in El].
Qed.

Lemma collapse_hyphens_from_app x : forall p y,
  collapse_hyphens_from p (x ++ y)
  = collapse_hyphens_from p x ++ collapse_hyphens_from (after_hyphen p x) y.
Proof.
  induction x as [|c r IH]; intros p y; [done|].
  rewrite after_hyphen_cons. cbn [app collapse_hyphens_from].
  destruct (c =? HYPHEN); [destruct p|]; by rewrite IH.
Qed.

Lemma collapse_hyphens_from_hyphens hs y :
  Forall (fun c => c = HYPHEN) hs ->
  collapse_hyphens_from true (hs ++ y) = collapse_hyphens_from true y.
Proof. induction 1 as [|c r -> _ IH]; [done|]. exact IH. Qed.

Lemma lstrip_collapse_hyphens s :
  lstrip_char HYPHEN (collapse_hyphens_from false s) = collapse_hyphens_from true s.
Proof.
  destruct s as [|c r]; [done|]. cbn [collapse_hyphens_from].
  destruct (N.eqb_spec c HYPHEN) as [->|Hc]; cbn [lstrip_char].
  - change (HYPHEN =? HYPHEN) with true. cbn iota.
    pose proof (collapse_hyphens_from_head r) as Hh.
    destruct (collapse_hyphens_from true r) as [|x t]; [done|]. cbn.
    destruct (N.eqb_spec x HYPHEN) as [->|]; done.
  - by apply N.eqb_neq in Hc as ->.
Qed.

(** [name_to_id] without the steps that do not show in its result. *)
Lemma name_to_id_collapsed {CM : CaseMapping} (name : str) :
  name_to_id name
  = rstrip_char HYPHEN (collapse_hyphens_from true (sub_non_slug (str_lower name))).
Proof.
  unfold name_to_id, strip_char, collapse_hyphens, sub_colon.
  by rewrite collapse_sub_colon_from, lstrip_collapse_hyphens.
Qed.

Lemma lstrip_char_app c x y :
  lstrip_char c x <> [] -> lstrip_char c (x ++ y) = lstrip_char c x ++ y.
Proof.
  induction x as [|a r IH]; [done|]. cbn. destruct (a =? c); [exact IH | done].
Qed.

Lemma lstrip_char_all c x : lstrip_char c x = [] -> Forall (fun a => a = c) x.
Proof.
  induction x as [|a r IH]; [done|]. cbn.
  destruct (N.eqb_spec a c) as [->|]; [|done]. intros H. constructor; auto.
Qed.

Lemma rstrip_char_app c x y :
  rstrip_char c y <> [] -> rstrip_char c (x ++ y) = x ++ rstrip_char c y.
Proof.
  unfold rstrip_char. intros H. rewrite rev_app_distr, lstrip_char_app.
  - by rewrite rev_app_distr, rev_involutive.
  - intros E. apply H. by rewrite E.
Qed.

Lemma rstrip_char_snoc c x : rstrip_char c (x ++ [c]) = rstrip_char c x.
Proof. unfold rstrip_char. rewrite rev_unit. cbn. by rewrite N.eqb_refl. Qed.

Lemma rstrip_char_snoc_other c a x :
  a <> c -> rstrip_char c (x ++ [a]) = x ++ [a].
Proof.
  intros H. unfold rstrip_char. rewrite rev_unit. cbn.
  apply N.eqb_neq in H as ->. cbn. by rewrite rev_involutive.
Qed.

Lemma rstrip_char_nil c x :
  rstrip_char c x = [] -> head x <> Some c -> x = [].
Proof.
  unfold rstrip_char. intros H Hh.
  assert (Hl : lstrip_char c (rev x) = []).
  { by rewrite <- (rev_involutive (lstrip_char c (rev x))), H. }
  apply lstrip_char_all in Hl. apply Forall_rev in Hl. rewrite rev_involutive in Hl.
  destruct Hl as [|a r -> _]; [done|]. by destruct Hh.
Qed.

Lemma collapse_hyphens_from_snoc p x c :
  collapse_hyphens_from p (x ++ [c])
  = collapse_hyphens_from p x
    ++ (if c =? HYPHEN then (if after_hyphen p x then [] else [HYPHEN]) else [c]).
Proof.
  rewrite collapse_hyphens_from_app. cbn [collapse_hyphens_from].
  destruct (c =? HYPHEN); [by destruct (after_hyphen p x)|done].
Qed.

Lemma after_hyphen_snoc p x c : after_hyphen p (x ++ [c]) = (c =? HYPHEN).
Proof. unfold after_hyphen. by rewrite last_snoc. Qed.

(** A collapsed string that is all hyphens came from a string that ends in a
    hyphen. *)
Lemma collapse_hyphens_from_nil x :
  collapse_hyphens_from true x = [] -> after_hyphen true x = true.
Proof.
  induction x as [|c r IH] using rev_ind; [done|].
  rewrite collapse_hyphens_from_snoc, after_hyphen_snoc.
  destruct (c =? HYPHEN); [done|]. intros H. by apply app_eq_nil in H as [_ H].
Qed.

(** The separator that follows a collapsed string: its trailing hyphen when
    it has one, a fresh hyphen otherwise. *)
Lemma collapse_hyphens_from_sep x : forall p,
  rstrip_char HYPHEN (collapse_hyphens_from p x) <> [] ->
  collapse_hyphens_from p x ++ (if after_hyphen p x then [] else [HYPHEN])
  = rstrip_char HYPHEN (collapse_hyphens_from p x) ++ [HYPHEN].
Proof.
  induction x as [|c r IH] using rev_ind; intros p; [done|].
  rewrite collapse_hyphens_from_snoc, after_hyphen_snoc.
  destruct (N.eqb_spec c HYPHEN) as [->|Hc].
  - rewrite app_nil_r. destruct (after_hyphen p r) eqn:Ha.
    + rewrite app_nil_r. intros H. specialize (IH p H). by rewrite Ha, app_nil_r in IH.
    + rewrite rstrip_char_snoc. intros H. specialize (IH p H). by rewrite Ha in IH.
  - intros _. by rewrite rstrip_char_snoc_other.
Qed.

(** The identifier of two parts with a hyphen between them. *)
Lemma slug_of_hyphenated a b :
  rstrip_char HYPHEN (collapse_hyphens_from true (a ++ HYPHEN :: b))
  = match rstrip_char HYPHEN (collapse_hyphens_from true a),
          rstrip_char HYPHEN (collapse_hyphens_from true b) with
    | [], r => r
    | l, [] => l
    | l, r => l ++ HYPHEN :: r
    end.
Proof.
  rewrite collapse_hyphens_from_app. cbn [collapse_hyphens_from].
  change (HYPHEN =? HYPHEN) with true. cbn iota.
  assert (Hsep : (if after_hyphen true a then collapse_hyphens_from true b
                  else HYPHEN :: collapse_hyphens_from true b)
                 = (if after_hyphen true a then [] else [HYPHEN])
                   ++ collapse_hyphens_from true b).
  { by destruct (after_hyphen true a). }
  rewrite Hsep. clear Hsep.
  set (ca := collapse_hyphens_from true a). set (cb := collapse_hyphens_from true b).
  destruct (rstrip_char HYPHEN cb) as [|y t] eqn:Hb.
  - apply rstrip_char_nil in Hb; [|apply collapse_hyphens_from_head].
    rewrite Hb, app_nil_r.
    assert (Hgoal : rstrip_char HYPHEN
                      (ca ++ (if after_hyphen true a then [] else [HYPHEN]))
                    = rstrip_char HYPHEN ca).
    { destruct (after_hyphen true a); [by rewrite app_nil_r|].
      apply rstrip_char_snoc. }
    rewrite Hgoal. by destruct (rstrip_char HYPHEN ca).
  - rewrite app_assoc, rstrip_char_app by (by rewrite Hb). rewrite Hb.
    destruct (rstrip_char HYPHEN ca) as [|x s] eqn:Ha.
    + apply rstrip_char_nil in Ha; [|apply collapse_hyphens_from_head].
      unfold ca in *. by rewrite (collapse_hyphens_from_nil a Ha), Ha.
    + unfold ca in *. rewrite collapse_hyphens_from_sep by (by rewrite Ha).
      rewrite Ha. by rewrite <- app_assoc.
Qed.

(** C10. A colon is turned into a hyphen wherever it stands in the label.
    When the lowercased label is [before], a colon, whitespace [ws] and
    [after], then [name_to_id] gives what it gives for the label with a
    hyphen in place of the colon and its whitespace; and that is the
    identifier of [before], a hyphen and the identifier of [after], the
    hyphen being dropped, as every hyphen at an end is, when one of the two
    identifiers is empty. *)
Theorem name_to_id_colon_anywhere (CM : CaseMapping)
    (name before ws after : str) :
  Forall (fun c => is_space c = true) ws ->
  str_lower name = str_lower before ++ COLON :: ws ++ str_lower after ->
  (forall hyphenated,
      str_lower hyphenated = str_lower before ++ HYPHEN :: str_lower after ->
      name_to_id name = name_to_id hyphenated)
  /\ name_to_id name
     = match name_to_id before, name_to_id after with
       | [], r => r
       | l, [] => l
       | l, r => l ++ HYPHEN :: r
       end.
Proof.
  intros Hws Hname.
  assert (Hcolon : name_to_id name
                   = rstrip_char HYPHEN
                       (collapse_hyphens_from true
                          (sub_non_slug (str_lower before)
                           ++ HYPHEN :: sub_non_slug (str_lower after)))).
  { rewrite name_to_id_collapsed, Hname. unfold sub_non_slug.
    rewrite map_app. cbn [map]. rewrite map_app.
    change (is_slug_char COLON) with false. cbn iota.
    rewrite !collapse_hyphens_from_app. cbn [collapse_hyphens_from].
    change (HYPHEN =? HYPHEN) with true. cbn iota.
    rewrite collapse_hyphens_from_hyphens; [done|].
    apply Forall_map. eapply Forall_impl; [exact Hws|].
    intros c Hc. cbn. by rewrite (is_space_not_slug c Hc). }
  split.
  - intros hyphenated Hh. rewrite Hcolon, name_to_id_collapsed, Hh.
    unfold sub_non_slug. rewrite map_app. reflexivity.
  - rewrite Hcolon, !name_to_id_collapsed. apply slug_of_hyphenated.
Qed.

Lemma name_to_id_colon_anywhere_witness :
  name_to_id (CM := ascii_case) (py "a: b: 1") = py "a-b-1".
Proof.
  apply (proj2 (name_to_id_colon_anywhere ascii_case
                  (py "a: b: 1") (py "a") (py " ") (py "b: 1")
                  ltac:(repeat constructor) eq_refl)).
Defined.

(** ** [normalize_pattern] *)

Lemma valid_step_str_spec s : valid_step_str s = true <-> bit_string16 s.
Proof.
  unfold valid_step_str, bit_string16.
  rewrite andb_true_iff, Nat.eqb_eq, forallb_forall, Forall_forall.
  split; intros [Hl Hc]; (split; [done|]); intros c Hin.
  - apply list_elem_of_In, Hc in Hin.
    apply orb_true_iff in Hin as [H|H]; apply N.eqb_eq in H; auto.
  - apply list_elem_of_In, Hc in Hin.
    apply orb_true_iff. rewrite !N.eqb_eq. done.
Qed.

Lemma repaired_step_valid rs k : bit_string16 (repaired_step rs k).
Proof.
  unfold repaired_step.
  destruct (valid_step_str (default ZEROS16 (dict_get k rs))) eqn:E.
  - by apply valid_step_str_spec.
  - by apply valid_step_str_spec.
Qed.

Lemma repaired_step_malformed rs k :
  malformed_step (dict_get k rs) -> repaired_step rs k = ZEROS16.
Proof.
  unfold repaired_step, malformed_step.
  destruct (dict_get k rs) as [s|]; simpl; [|done].
  intros H. destruct (valid_step_str s) eqn:E; [|done].
  apply valid_step_str_spec in E as [Hl Hc]. destruct H as [H|H]; [done|].
  apply Exists_exists in H as [c [Hin [H0 H1]]].
  rewrite Forall_forall in Hc. destruct (Hc c Hin); done.
Qed.

Lemma build_steps_fold name rs l acc :
  fst (fold_left
         (fun (acc : dict str * list Msg) (item : str * str) =>
            let '(steps, out) := acc in
            let '(pdf_key, track_id) := item in
            let step_str := default ZEROS16 (dict_get pdf_key rs) in
            if valid_step_str step_str
            then (dict_set track_id step_str steps, out)
            else (dict_set track_id ZEROS16 steps,
                  out ++ [MsgInvalidSteps pdf_key name step_str]))
         l acc)
  = fold_left (fun d item => dict_set (snd item) (repaired_step rs (fst item)) d)
      l (fst acc).
Proof.
  revert acc. induction l as [|[k t] l IH]; intros [st out]; simpl; [done|].
  rewrite IH. f_equal. unfold repaired_step. simpl.
  by destruct (valid_step_str (default ZEROS16 (dict_get k rs))).
Qed.

Lemma fold_instrument_map (g : str -> str) :
  fold_left (fun d item => dict_set (snd item) (g (fst item)) d) INSTRUMENT_MAP []
  = map (fun item => (snd item, g (fst item))) INSTRUMENT_MAP.
Proof. reflexivity. Qed.

Lemma ensure_tracks_full (g : str -> str) :
  ensure_tracks (map (fun item => (snd item, g (fst item))) INSTRUMENT_MAP)
  = map (fun item => (snd item, g (fst item))) INSTRUMENT_MAP.
Proof. reflexivity. Qed.

Lemma build_steps_fst name rs :
  fst (build_steps name rs)
  = map (fun item => (snd item, repaired_step rs (fst item))) INSTRUMENT_MAP.
Proof.
  unfold build_steps. rewrite build_steps_fold.
  apply (fold_instrument_map (repaired_step rs)).
Qed.

(** The shape of every accepted record. *)
Lemma normalize_pattern_accepted {CM : CaseMapping} raw p out :
  normalize_pattern raw = (Some p, out) ->
  raw_grid_width raw = Some 16%Z
  /\ pattern_id p = name_to_id (default [] (raw_name raw))
  /\ pattern_id p <> []
  /\ steps p = map (fun item => (snd item,
                                 repaired_step (default [] (raw_steps raw)) (fst item)))
                   INSTRUMENT_MAP.
Proof.
  unfold normalize_pattern.
  destruct (Z.eqb_spec (default 0%Z (raw_grid_width raw)) 16) as [Hw|Hw];
    simpl; [|discriminate].
  destruct (contains _ _); [discriminate|].
  destruct (name_to_id (default [] (raw_name raw))) as [|c r] eqn:Hid;
    [discriminate|].
  pose proof (build_steps_fst (default [] (raw_name raw))
                (default [] (raw_steps raw))) as Hb.
  destruct (build_steps _ _) as [st o]. cbn [fst] in Hb. subst st.
  rewrite ensure_tracks_full. intros [= <- _]. cbn [pattern_id steps].
  repeat split; [|done].
  destruct (raw_grid_width raw); simpl in Hw; [by subst | discriminate].
Qed.

Lemma instrument_codes_are_track_ids : map snd INSTRUMENT_MAP ≡ₚ ALL_TRACK_IDS.
Proof.
  apply (bool_decide_unpack (map snd INSTRUMENT_MAP ≡ₚ ALL_TRACK_IDS)).
  by vm_compute.
Qed.

(** C5. Every record [normalize_pattern] accepts has a [steps] mapping whose
    keys are the twelve track ids, each once, whose values all are strings of
    sixteen characters over ["0"] and ["1"], and an [id] that is not empty. *)
Theorem normalize_pattern_output_invariant (CM : CaseMapping)
    (raw : RawPattern) (p : Pattern) (out : list Msg) :
  normalize_pattern raw = (Some p, out) ->
  dict_keys (steps p) ≡ₚ ALL_TRACK_IDS
  /\ NoDup (dict_keys (steps p))
  /\ length (steps p) = 12%nat
  /\ Forall (fun kv => bit_string16 (snd kv)) (steps p)
  /\ pattern_id p <> [].
Proof.
  intros H. apply normalize_pattern_accepted in H as (_ & _ & Hid & Hst).
  assert (Hk : dict_keys (steps p) = map snd INSTRUMENT_MAP).
  { rewrite Hst. unfold dict_keys. rewrite map_map. reflexivity. }
  repeat split.
  - rewrite Hk. apply instrument_codes_are_track_ids.
  - rewrite Hk.
    apply (bool_decide_unpack (NoDup (map snd INSTRUMENT_MAP))). by vm_compute.
  - rewrite Hst. by rewrite length_map.
  - rewrite Hst. apply Forall_map, Forall_forall. intros item _.
    apply repaired_step_valid.
  - exact Hid.
Qed.

Lemma normalize_pattern_output_invariant_witness :
  exists p out,
    normalize_pattern (CM := ascii_case) rock_3 = (Some p, out)
    /\ pattern_id p = py "rock-3"
    /\ dict_keys (steps p) ≡ₚ ALL_TRACK_IDS
    /\ Forall (fun kv => bit_string16 (snd kv)) (steps p).
Proof.
  eexists; eexists. split; [reflexivity|]. split; [reflexivity|].
  pose proof (normalize_pattern_output_invariant ascii_case rock_3 _ _ eq_refl)
    as (Hk & _ & _ & Hv & _).
  split; [exact Hk | exact Hv].
Defined.

(** C9. [normalize_pattern] returns nothing, and prints nothing, for every
    record whose [grid_width] is not 16; a record without the field is one of
    them, the default 0 standing for it. *)
Theorem normalize_pattern_rejects_other_widths (CM : CaseMapping)
    (raw : RawPattern) :
  raw_grid_width raw <> Some 16%Z ->
  normalize_pattern raw = (None, []).
Proof.
  intros H. unfold normalize_pattern.
  destruct (raw_grid_width raw) as [w|]; simpl.
  - destruct (Z.eqb_spec w 16) as [->|_]; [done|reflexivity].
  - reflexivity.
Qed.

Lemma normalize_pattern_rejects_other_widths_witness :
  normalize_pattern (CM := ascii_case)
    {| raw_name := Some (py "Rock: 3"); raw_grid_width := None;
       raw_steps := raw_steps rock_3 |} = (None, [])
  /\ normalize_pattern (CM := ascii_case)
    {| raw_name := Some (py "Rock: 3"); raw_grid_width := Some 12%Z;
       raw_steps := raw_steps rock_3 |} = (None, []).
Proof.
  split; apply (normalize_pattern_rejects_other_widths ascii_case); simpl;
    discriminate.
Defined.

(** ** The page driver *)

Lemma prints_run (out : list Msg) (fs : FS) :
  fold_right (fun m k => print m ;; k) (ret tt) out fs
  = (Return tt, fs, map EvPrint out).
Proof.
  induction out as [|m out IH]; [done|].
  cbn [fold_right map]. run_monad. fold (@ret unit).
  change (fold_right _ _ out fs) with
    (fold_right (fun m k => print m ;; k) (ret tt) out fs).
  by rewrite IH.
Qed.

Lemma normalize_all_run {CM : CaseMapping} (raws : list RawPattern) (fs : FS) :
  normalize_all raws fs
  = (Return (normalized_patterns raws), fs, normalize_output raws).
Proof.
  induction raws as [|raw raws IH]; [done|].
  cbn [normalize_all]. unfold normalized_patterns, normalize_output.
  cbn [omap list_omap map concat].
  destruct (normalize_pattern raw) as [o out]. cbn [fst snd].
  unfold mbind at 1, M_bind at 1, bind at 1. rewrite prints_run.
  unfold mbind at 1, M_bind at 1, bind at 1. rewrite IH.
  unfold mret, M_ret, ret. rewrite map_app.
  destruct o; cbn; by rewrite app_nil_r.
Qed.

Section PageRuns.
Context {CM : CaseMapping} (W : World).

Lemma process_page_cached_run fs d page_num patterns :
  output_dir fs = Some d ->
  page_json d !! page_num = Some patterns ->
  process_page W page_num fs
  = (Return patterns, fs, [EvPrint (MsgAlreadyDone page_num)]).
Proof.
  intros Hd Hp. unfold process_page, output_file_exists, read_output_file.
  assert (Ho : output_file fs page_num = Some patterns).
  { unfold output_file. by rewrite Hd. }
  run_monad. rewrite Ho. cbn. by rewrite Ho.
Qed.

Lemma process_page_failed_run fs d page_num png rest e :
  output_dir fs = Some d ->
  page_json d !! page_num = None ->
  pdftoppm W page_num = ToolOutput (png :: rest) ->
  generate_content W png = Failed e ->
  caught_by_process_page (exn_class e) = true ->
  process_page W page_num fs
  = (Return [],
     with_output_dir fs
       {| page_json := page_json d;
          page_error := <[page_num := exn_text e]> (page_error d) |},
     [EvPrint (MsgRendering page_num); EvRender page_num;
      EvPrint (MsgSending page_num); EvRecognize png;
      EvPrint (MsgPageError page_num (exn_text e))]).
Proof.
  intros Hd Hp Hr Hg Hc.
  unfold process_page, output_file_exists, render_page,
    extract_patterns_from_image, write_error_file.
  assert (Ho : output_file fs page_num = None).
  { unfold output_file. by rewrite Hd. }
  run_monad. rewrite Ho. cbn. rewrite Hr. run_monad.
  rewrite Hg. run_monad. rewrite Hc. rewrite Hd. reflexivity.
Qed.

Lemma process_page_parsed_run fs d page_num png rest dps :
  output_dir fs = Some d ->
  page_json d !! page_num = None ->
  pdftoppm W page_num = ToolOutput (png :: rest) ->
  generate_content W png = Parsed dps ->
  let raws := map raw_of_drum_pattern dps in
  let patterns := normalized_patterns raws in
  process_page W page_num fs
  = (Return patterns,
     with_output_dir fs
       {| page_json := <[page_num := patterns]> (page_json d);
          page_error := page_error d |},
     [EvPrint (MsgRendering page_num); EvRender page_num;
      EvPrint (MsgSending page_num); EvRecognize png]
     ++ normalize_output raws
     ++ [EvPrint (MsgPagePatterns page_num (length patterns)
                    (length raws - length patterns)
                    (map display_name patterns))]).
Proof.
  intros Hd Hp Hr Hg raws patterns.
  unfold process_page, output_file_exists, render_page,
    extract_patterns_from_image, write_output_file.
  assert (Ho : output_file fs page_num = None).
  { unfold output_file. by rewrite Hd. }
  run_monad. rewrite Ho. cbn. rewrite Hr. run_monad.
  rewrite Hg. run_monad. rewrite normalize_all_run. rewrite Hd.
  fold raws. fold patterns. reflexivity.
Qed.
End PageRuns.

(** C2. When the success cache file of a page exists, [process_page] returns
    the list stored in it, leaves every file as it was and does nothing but
    print that the page is done: neither the renderer nor the recognition
    service is called. *)
Theorem process_page_resumes_from_cache (CM : CaseMapping) (W : World)
    (fs : FS) (d : CacheDir) (page_num : nat) (patterns : list Pattern) :
  output_dir fs = Some d ->
  page_json d !! page_num = Some patterns ->
  process_page W page_num fs
  = (Return patterns, fs, [EvPrint (MsgAlreadyDone page_num)])
  /\ filter (fun e => is_external_call e = true)
       (run_trace (process_page W page_num fs)) = [].
Proof.
  intros Hd Hp. rewrite (process_page_cached_run W fs d page_num patterns Hd Hp).
  split; reflexivity.
Qed.

Lemma process_page_resumes_from_cache_witness :
  process_page (CM := ascii_case) failing_renderer 9 sample_fs
  = (Return [rock_3_pattern], sample_fs, [EvPrint (MsgAlreadyDone 9)]).
Proof.
  apply (process_page_resumes_from_cache ascii_case failing_renderer sample_fs
           _ 9%nat [rock_3_pattern] eq_refl).
  reflexivity.
Defined.

(** C3, as the design document has it, fails: page 10 of [sample_fs] has an
    error marker and no success cache file, and the next run renders it and
    sends it to the recognition service again. *)
Lemma errored_page_is_retried :
  error_text sample_fs 10 = Some (py "Expecting value")
  /\ ~ cached sample_fs 10
  /\ run_trace (process_page (CM := ascii_case) failing_recognition 10 sample_fs)
     = [EvPrint (MsgRendering 10); EvRender 10;
        EvPrint (MsgSending 10); EvRecognize sample_png;
        EvPrint (MsgPageError 10 (py "Expecting value"))].
Proof.
  split; [reflexivity|]. split; [|reflexivity].
  intros [x Hx]. vm_compute in Hx. discriminate.
Qed.

(** How traces compose. *)
Lemma trace_emit_then {A} (e : Event) (k : M A) (fs : FS) :
  run_trace ((emit e ;; k) fs) = e :: run_trace (k fs).
Proof.
  unfold run_trace. run_monad. by destruct (k fs) as [[r f] t].
Qed.

Lemma trace_bind_prefix {A B} (m : M A) (k : A -> M B) (fs : FS) :
  exists t, run_trace ((m ≫= k) fs) = run_trace (m fs) ++ t.
Proof.
  unfold run_trace. run_monad. destruct (m fs) as [[[a|e|c] f] t]; cbn.
  - destruct (k a f) as [[r' f'] t']. by exists t'.
  - exists []. by rewrite app_nil_r.
  - exists []. by rewrite app_nil_r.
Qed.

Lemma trace_bind_return {A B} (m : M A) (k : A -> M B) (fs fs1 : FS) a t1 :
  m fs = (Return a, fs1, t1) ->
  run_trace ((m ≫= k) fs) = t1 ++ run_trace (k a fs1).
Proof.
  intros H. unfold run_trace. run_monad. rewrite H.
  by destruct (k a fs1) as [[r' f'] t'].
Qed.

Lemma trace_try_except_prefix {A} (body : M A) c h (fs : FS) :
  exists t, run_trace (try_except body c h fs) = run_trace (body fs) ++ t.
Proof.
  unfold run_trace, try_except. destruct (body fs) as [[[a|e|x] f] t]; cbn.
  - exists []. by rewrite app_nil_r.
  - destruct (c (exn_class e)).
    + destruct (h e f) as [[r' f'] t']. by exists t'.
    + exists []. by rewrite app_nil_r.
  - exists []. by rewrite app_nil_r.
Qed.

Lemma trace_fmap {A B} (f : A -> B) (m : M A) (fs : FS) :
  run_trace ((f <$> m) fs) = run_trace (m fs).
Proof.
  unfold run_trace. run_monad. destruct (m fs) as [[[a|e|c] g] t]; cbn; [|done..].
  by rewrite app_nil_r.
Qed.

Lemma process_page_uncached {CM : CaseMapping} (W : World) fs page_num :
  output_file fs page_num = None ->
  process_page W page_num fs
  = (emit (EvPrint (MsgRendering page_num)) ;;
     image_data ← render_page W page_num;
     recognize_rendered W page_num image_data) fs.
Proof.
  intros Hx. unfold process_page, output_file_exists, recognize_rendered.
  run_monad. rewrite Hx. cbn.
  match goal with |- _ = ?R => generalize R end.
  by intros [[r f] t].
Qed.

Lemma trace_recognize_rendered {CM : CaseMapping} (W : World) fs page_num png :
  exists t,
    run_trace (recognize_rendered W page_num png fs)
    = EvPrint (MsgSending page_num) :: EvRecognize png :: t.
Proof.
  unfold recognize_rendered, print. rewrite trace_emit_then.
  match goal with
  | |- context [run_trace ((?m ≫= ?k) fs)] =>
      destruct (trace_bind_prefix m k fs) as [t1 ->]
  end.
  match goal with
  | |- context [run_trace (try_except ?b ?c ?h fs)] =>
      destruct (trace_try_except_prefix b c h fs) as [t2 ->]
  end.
  rewrite trace_fmap. unfold extract_patterns_from_image.
  rewrite trace_emit_then. eexists. cbn [app]. reflexivity.
Qed.

(** C3, amended. [process_page] never reads the error marker: a page without
    a success cache file is rendered again, whether or not an earlier run
    left an error marker, and is sent to the recognition service again as
    soon as rendering yields an image. *)
Theorem process_page_retries_without_cache (CM : CaseMapping) (W : World)
    (fs : FS) (page_num : nat) :
  ~ cached fs page_num ->
  exists tr,
    run_trace (process_page W page_num fs)
    = EvPrint (MsgRendering page_num) :: EvRender page_num :: tr
    /\ forall png rest,
         pdftoppm W page_num = ToolOutput (png :: rest) ->
         exists tr', tr = EvPrint (MsgSending page_num) :: EvRecognize png :: tr'.
Proof.
  intros Hc. unfold cached in Hc.
  destruct (output_file fs page_num) as [x|] eqn:Hx; [destruct Hc; eauto|].
  rewrite (process_page_uncached W fs page_num Hx), trace_emit_then.
  destruct (pdftoppm W page_num) as [text|[|png rest]] eqn:Hr.
  1, 2: match goal with
        | |- context [run_trace ((?m ≫= ?k) ?s)] =>
            destruct (trace_bind_prefix m k s) as [t ->]
        end;
        unfold render_page; rewrite trace_emit_then; cbn [app];
        eexists; (split; [reflexivity|]); discriminate.
  rewrite (trace_bind_return (render_page W page_num) _ fs fs png
             [EvRender page_num])
    by (unfold render_page; run_monad; by rewrite Hr).
  destruct (trace_recognize_rendered W fs page_num png) as [t ->].
  eexists. split; [reflexivity|]. intros png' rest' [= <- <-]. by exists t.
Qed.

Lemma process_page_retries_without_cache_witness :
  exists tr,
    run_trace (process_page (CM := ascii_case) failing_recognition 10 sample_fs)
    = EvPrint (MsgRendering 10) :: EvRender 10 :: tr.
Proof.
  destruct (process_page_retries_without_cache ascii_case failing_recognition
              sample_fs 10%nat) as [tr [Htr _]].
  - intros [x Hx]. vm_compute in Hx. discriminate.
  - exists tr. exact Htr.
Defined.

(** ** The range scan *)

Lemma with_output_dir_id fs d : output_dir fs = Some d -> with_output_dir fs d = fs.
Proof. destruct fs; cbn; by intros ->. Qed.

Section RangeScan.
Context {CM : CaseMapping} (W : World).

(** One page: the call returns, touches the files of this page only, and
    records a caught failure in the page's error marker. *)
Lemma process_page_local fs d page_num :
  output_dir fs = Some d ->
  only_caught_failures W fs page_num ->
  exists patterns d' tr,
    process_page W page_num fs = (Return patterns, with_output_dir fs d', tr)
    /\ (forall m, m <> page_num ->
          page_json d' !! m = page_json d !! m
          /\ page_error d' !! m = page_error d !! m)
    /\ (page_json d !! page_num = None ->
          EvRender page_num ∈ tr
          /\ forall png rest e,
               pdftoppm W page_num = ToolOutput (png :: rest) ->
               generate_content W png = Failed e ->
               patterns = []
               /\ page_json d' !! page_num = None
               /\ page_error d' !! page_num = Some (exn_text e)
               /\ EvPrint (MsgPageError page_num (exn_text e)) ∈ tr).
Proof.
  intros Hd Hok. destruct (page_json d !! page_num) as [ps|] eqn:Hp.
  - exists ps, d, [EvPrint (MsgAlreadyDone page_num)].
    rewrite (with_output_dir_id fs d Hd).
    split; [by apply process_page_cached_run with d|]. split; done.
  - destruct Hok as [Hc|(png & rest & Hr & Hg)].
    { unfold cached, output_file in Hc. rewrite Hd, Hp in Hc. by destruct Hc. }
    destruct (generate_content W png) as [dps|e] eqn:Hgc.
    + eexists _, _, _. split;
        [exact (process_page_parsed_run W fs d page_num png rest dps Hd Hp Hr Hgc)|].
      split.
      * intros m Hm. cbn. by rewrite lookup_insert_ne.
      * intros _. split.
        { cbn. rewrite !elem_of_cons. auto. }
        intros png' rest' e Hr'. rewrite Hr in Hr'. injection Hr' as <- <-.
        rewrite Hgc. discriminate.
    + eexists _, _, _. split;
        [exact (process_page_failed_run W fs d page_num png rest e Hd Hp Hr Hgc Hg)|].
      split.
      * intros m Hm. cbn. by rewrite lookup_insert_ne.
      * intros _. split.
        { rewrite !elem_of_cons. auto. }
        intros png' rest' e' Hr'. rewrite Hr in Hr'. injection Hr' as <- <-.
        rewrite Hgc. intros [= <-]. cbn. rewrite lookup_insert_eq.
        repeat split; [done|]. rewrite !elem_of_cons. auto 10.
Qed.

Lemma parse_pages_local pages : forall total fs d,
  NoDup pages ->
  output_dir fs = Some d ->
  (forall n, n ∈ pages -> only_caught_failures W fs n) ->
  exists total' d' tr,
    parse_pages W pages total fs = (Return total', with_output_dir fs d', tr)
    /\ (forall m, m ∉ pages ->
          page_json d' !! m = page_json d !! m
          /\ page_error d' !! m = page_error d !! m)
    /\ (forall n, n ∈ pages -> page_json d !! n = None ->
          EvRender n ∈ tr
          /\ forall png rest e,
               pdftoppm W n = ToolOutput (png :: rest) ->
               generate_content W png = Failed e ->
               page_json d' !! n = None
               /\ page_error d' !! n = Some (exn_text e)
               /\ EvPrint (MsgPageError n (exn_text e)) ∈ tr).
Proof.
  induction pages as [|p rest IH]; intros total fs d Hnd Hd Hok.
  - exists total, d, []. rewrite (with_output_dir_id fs d Hd).
    split; [done|]. split; [done|]. intros n Hn. by apply elem_of_nil in Hn.
  - apply NoDup_cons in Hnd as [Hp Hnd].
    destruct (process_page_local fs d p Hd (Hok p ltac:(left)))
      as (ps & d1 & t1 & Hrun & Hframe & Hrec).
    destruct (IH (total + length ps)%nat (with_output_dir fs d1) d1 Hnd eq_refl)
      as (total' & d2 & t2 & Hrun2 & Hframe2 & Hrec2).
    { intros n Hn. destruct (Hok n ltac:(by right)) as [Hc|Hw]; [|by right].
      left. unfold cached, output_file in *. cbn. rewrite Hd in Hc.
      destruct (Hframe n) as [-> _]; [|done]. intros ->. done. }
    exists total', d2, (t1 ++ EvSleep 1 :: t2). split; [|split].
    + cbn [parse_pages]. run_monad. rewrite Hrun, Hrun2. reflexivity.
    + intros m Hm. apply not_elem_of_cons in Hm as [Hm1 Hm2].
      destruct (Hframe2 m Hm2) as [-> ->]. by apply Hframe.
    + intros n Hn Hnone. apply elem_of_cons in Hn as [->|Hn].
      * destruct (Hrec Hnone) as [Hrender Hfail]. split.
        { apply elem_of_app. by left. }
        intros png rest' e Hr Hg.
        destruct (Hfail png rest' e Hr Hg) as (_ & Hj & He & Hprint).
        destruct (Hframe2 p Hp) as [-> ->].
        repeat split; [done..|]. apply elem_of_app. by left.
      * assert (n <> p) as Hne by (intros ->; done).
        destruct (Hframe n Hne) as [Hj _].
        destruct (Hrec2 n Hn) as [Hrender Hfail]; [by rewrite Hj|]. split.
        { apply elem_of_app. right. by right. }
        intros png rest' e Hr Hg.
        destruct (Hfail png rest' e Hr Hg) as (Hj2 & He & Hprint).
        repeat split; [done..|]. apply elem_of_app. right. by right.
Qed.
End RangeScan.

Lemma mkdir_output_dir_run fs :
  mkdir_output_dir fs
  = (Return tt,
     with_output_dir fs (default {| page_json := ∅; page_error := ∅ |} (output_dir fs)),
     []).
Proof.
  unfold mkdir_output_dir. run_monad. destruct (output_dir fs) as [d|] eqn:Hd; cbn.
  - by rewrite (with_output_dir_id fs d Hd).
  - reflexivity.
Qed.

Lemma new_client_run (W : World) fs :
  new_client W fs
  = match genai_Client W (GEMINI_API_KEY W) with
    | Some e => (Raise e, fs, [])
    | None => (Return tt, fs, [])
    end.
Proof. unfold new_client. by destruct (genai_Client W (GEMINI_API_KEY W)). Qed.

(** [do_parse] once the PDF is there and the client is built: the scan of the
    range from the created directory, and the closing line when it returns. *)
Lemma do_parse_run {CM : CaseMapping} (W : World) fs start end_ :
  pdf_present fs = true ->
  client_constructed W ->
  do_parse W start end_ fs
  = match parse_pages W (seq start (end_ + 1 - start)) 0%nat
            (with_output_dir fs
               (default {| page_json := ∅; page_error := ∅ |} (output_dir fs))) with
    | (Return total, fs', tr) =>
        (Return tt, fs', tr ++ [EvPrint (MsgParseDone total start end_)])
    | (Raise e, fs', tr) => (Raise e, fs', tr)
    | (Exit c, fs', tr) => (Exit c, fs', tr)
    end.
Proof.
  intros Hpdf Hclient. unfold do_parse. run_monad. rewrite Hpdf. cbn [negb].
  rewrite mkdir_output_dir_run, new_client_run, Hclient.
  destruct (parse_pages W _ _ _) as [[[total|e|c] fs'] tr]; reflexivity.
Qed.

Lemma do_parse_without_client {CM : CaseMapping} (W : World) fs start end_ e :
  pdf_present fs = true ->
  genai_Client W (GEMINI_API_KEY W) = Some e ->
  do_parse W start end_ fs
  = (Raise e,
     with_output_dir fs
       (default {| page_json := ∅; page_error := ∅ |} (output_dir fs)),
     []).
Proof.
  intros Hpdf Hclient. unfold do_parse. run_monad. rewrite Hpdf. cbn [negb].
  by rewrite mkdir_output_dir_run, new_client_run, Hclient.
Qed.

Lemma parse_pages_app {CM : CaseMapping} (W : World) pre post : forall total fs,
  parse_pages W (pre ++ post) total fs
  = match parse_pages W pre total fs with
    | (Return t1, fs1, tr1) =>
        let '(r, fs2, tr2) := parse_pages W post t1 fs1 in (r, fs2, tr1 ++ tr2)
    | (Raise e, fs1, tr1) => (Raise e, fs1, tr1)
    | (Exit c, fs1, tr1) => (Exit c, fs1, tr1)
    end.
Proof.
  induction pre as [|p rest IH]; intros total fs.
  - cbn. by destruct (parse_pages W post total fs) as [[r f] t].
  - cbn [app parse_pages]. run_monad.
    destruct (process_page W p fs) as [[[ps|e|c] fs1] t1]; [|done..].
    rewrite IH.
    destruct (parse_pages W rest _ fs1) as [[[t|e|c] f2] t2]; [|done..].
    destruct (parse_pages W post t f2) as [[r f3] t3].
    cbn. by rewrite <- !app_assoc.
Qed.

(** A failure that [process_page] has no handler for leaves it as the
    exception, with the files as they were. *)
Lemma process_page_raises {CM : CaseMapping} (W : World) fs d page_num e :
  output_dir fs = Some d ->
  page_json d !! page_num = None ->
  uncaught_failure W page_num e ->
  exists tr, process_page W page_num fs = (Raise e, fs, tr).
Proof.
  intros Hd Hp Hfail.
  unfold process_page, output_file_exists, render_page,
    extract_patterns_from_image.
  assert (Ho : output_file fs page_num = None).
  { unfold output_file. by rewrite Hd. }
  run_monad. rewrite Ho. cbn.
  destruct Hfail as [(text & Hr & ->)|[(Hr & ->)|(png & rest & Hr & Hg & Hc)]];
    rewrite Hr; run_monad; [by eexists..|].
  rewrite Hg. run_monad. rewrite Hc. by eexists.
Qed.

(** The scan stops at the first page whose failure is not caught; the files
    of that page and of the pages after it are as they were. *)
Lemma parse_pages_aborts {CM : CaseMapping} (W : World) pre n post e total fs d :
  NoDup pre ->
  n ∉ pre ->
  output_dir fs = Some d ->
  (forall m, m ∈ pre -> only_caught_failures W fs m) ->
  page_json d !! n = None ->
  uncaught_failure W n e ->
  exists d' tr,
    parse_pages W (pre ++ n :: post) total fs = (Raise e, with_output_dir fs d', tr)
    /\ forall m, m ∉ pre ->
         page_json d' !! m = page_json d !! m
         /\ page_error d' !! m = page_error d !! m.
Proof.
  intros Hnd Hn Hd Hok Hp Hfail.
  destruct (parse_pages_local W pre total fs d Hnd Hd Hok)
    as (total' & d' & tr & Hrun & Hframe & _).
  destruct (process_page_raises W (with_output_dir fs d') d' n e eq_refl)
    as [tr' Hraise]; [by destruct (Hframe n Hn) as [-> _] | done |].
  exists d', (tr ++ tr'). split; [|exact Hframe].
  rewrite parse_pages_app, Hrun. cbn [parse_pages]. run_monad.
  by rewrite Hraise.
Qed.

(** C4, as the design document has it, fails: the renderer leaves no image
    for page 11, the [RuntimeError] of [render_page] leaves [do_parse], no
    error marker is written for page 11 and page 12 is never looked at. *)
Lemma render_failure_aborts_scan :
  run_result (do_parse (CM := ascii_case) failing_renderer 11 12 sample_fs)
  = Raise {| exn_class := RuntimeError;
             exn_text := py "pdftoppm produced no output for page 11" |}
  /\ run_trace (do_parse (CM := ascii_case) failing_renderer 11 12 sample_fs)
     = [EvPrint (MsgRendering 11); EvRender 11]
  /\ error_text (run_fs (do_parse (CM := ascii_case) failing_renderer 11 12 sample_fs)) 11
     = None.
Proof. repeat split; vm_compute; reflexivity. Qed.

(** C4, amended. A failure of the recognition call that is a [ValueError]
    (a JSON decoding error is one) stays with its page: [process_page] writes
    the error text to the page's error marker and returns the empty list;
    and, once the client is built, a scan of a range in which no other kind
    of failure occurs visits every page of the range, records each such
    failure and ends normally.  Other failures are not caught: at the first
    page of the range where [pdftoppm] fails or leaves no image, or where the
    recognition call raises another exception, that exception leaves
    [do_parse], and neither that page nor any page after it gets a cache file
    or an error marker; and an exception of [genai.Client] leaves [do_parse]
    right after the directory is created, before any page is looked at. *)
Theorem do_parse_isolates_recognition_failures (CM : CaseMapping) (W : World)
    (fs : FS) (start end_ : nat) :
  (forall d page_num png rest e,
      output_dir fs = Some d ->
      page_json d !! page_num = None ->
      pdftoppm W page_num = ToolOutput (png :: rest) ->
      generate_content W png = Failed e ->
      caught_by_process_page (exn_class e) = true ->
      run_result (process_page W page_num fs) = Return []
      /\ error_text (run_fs (process_page W page_num fs)) page_num
         = Some (exn_text e))
  /\ (pdf_present fs = true ->
      client_constructed W ->
      (forall n, (start <= n <= end_)%nat -> only_caught_failures W fs n) ->
      exists total fs' tr,
        do_parse W start end_ fs
        = (Return tt, fs', tr ++ [EvPrint (MsgParseDone total start end_)])
        /\ forall n, (start <= n <= end_)%nat -> ~ cached fs n ->
             EvRender n ∈ tr
             /\ forall png rest e,
                  pdftoppm W n = ToolOutput (png :: rest) ->
                  generate_content W png = Failed e ->
                  ~ cached fs' n
                  /\ error_text fs' n = Some (exn_text e)
                  /\ EvPrint (MsgPageError n (exn_text e)) ∈ tr)
  /\ (pdf_present fs = true ->
      client_constructed W ->
      forall n e,
        (start <= n <= end_)%nat ->
        (forall m, (start <= m < n)%nat -> only_caught_failures W fs m) ->
        ~ cached fs n ->
        uncaught_failure W n e ->
        run_result (do_parse W start end_ fs) = Raise e
        /\ forall m, (n <= m)%nat ->
             output_file (run_fs (do_parse W start end_ fs)) m = output_file fs m
             /\ error_text (run_fs (do_parse W start end_ fs)) m = error_text fs m)
  /\ (pdf_present fs = true ->
      forall e,
        genai_Client W (GEMINI_API_KEY W) = Some e ->
        do_parse W start end_ fs
        = (Raise e,
           with_output_dir fs
             (default {| page_json := ∅; page_error := ∅ |} (output_dir fs)),
           [])).
Proof.
  set (d0 := default {| page_json := ∅; page_error := ∅ |} (output_dir fs)).
  assert (Hcached : forall n, cached (with_output_dir fs d0) n <-> cached fs n).
  { intros n. unfold cached, output_file, d0. cbn.
    destruct (output_dir fs); cbn; [done|]. rewrite lookup_empty. done. }
  assert (Hfiles : forall d' m,
             page_json d' !! m = page_json d0 !! m ->
             page_error d' !! m = page_error d0 !! m ->
             output_file (with_output_dir fs d') m = output_file fs m
             /\ error_text (with_output_dir fs d') m = error_text fs m).
  { intros d' m Hj He. unfold output_file, error_text, d0 in *. cbn.
    rewrite Hj, He. destruct (output_dir fs); cbn; [done|].
    by rewrite !lookup_empty. }
  split; [|split; [|split]].
  - intros d n png rest e Hd Hp Hr Hg Hc.
    rewrite (process_page_failed_run W fs d n png rest e Hd Hp Hr Hg Hc).
    split; [reflexivity|]. unfold error_text, run_fs. cbn.
    by rewrite lookup_insert_eq.
  - intros Hpdf Hclient Hok.
    destruct (parse_pages_local W (seq start (end_ + 1 - start)) 0%nat
                (with_output_dir fs d0) d0 (NoDup_seq _ _) eq_refl)
      as (total & d' & tr & Hrun & _ & Hrec).
    { intros n Hn. apply elem_of_seq in Hn.
      destruct (Hok n ltac:(lia)) as [Hc|Hw]; [left; by apply Hcached | by right]. }
    exists total, (with_output_dir fs d'), tr. split.
    + rewrite (do_parse_run W fs start end_ Hpdf Hclient). fold d0.
      by rewrite Hrun.
    + intros n Hn Hnc.
      assert (Hnone : page_json d0 !! n = None).
      { destruct (page_json d0 !! n) as [x|] eqn:Hx; [|done].
        destruct Hnc. apply Hcached. unfold cached, output_file. cbn.
        rewrite Hx. eauto. }
      destruct (Hrec n) as [Hrender Hfail]; [apply elem_of_seq; lia | done |].
      split; [done|]. intros png rest e Hr Hg.
      destruct (Hfail png rest e Hr Hg) as (Hj & He & Hprint).
      unfold cached, output_file, error_text. cbn. rewrite Hj, He.
      repeat split; [|done..]. by intros [x Hx].
  - intros Hpdf Hclient n e Hn Hok Hnc Hfail.
    assert (Hnone : page_json d0 !! n = None).
    { destruct (page_json d0 !! n) as [x|] eqn:Hx; [|done].
      destruct Hnc. apply Hcached. unfold cached, output_file. cbn.
      rewrite Hx. eauto. }
    assert (Hseq : seq start (end_ + 1 - start)
                   = seq start (n - start) ++ n :: seq (S n) (end_ - n)).
    { replace (end_ + 1 - start)%nat with ((n - start) + S (end_ - n))%nat by lia.
      rewrite seq_app. by replace (start + (n - start))%nat with n by lia. }
    destruct (parse_pages_aborts W (seq start (n - start)) n (seq (S n) (end_ - n))
                e 0%nat (with_output_dir fs d0) d0 (NoDup_seq _ _))
      as (d' & tr & Hrun & Hframe); [| done | | done | done |].
    { rewrite elem_of_seq. lia. }
    { intros m Hm. apply elem_of_seq in Hm.
      destruct (Hok m ltac:(lia)) as [Hc|Hw]; [left; by apply Hcached | by right]. }
    rewrite (do_parse_run W fs start end_ Hpdf Hclient). fold d0.
    rewrite Hseq, Hrun. unfold run_result, run_fs. cbn [fst snd].
    split; [reflexivity|]. intros m Hm.
    destruct (Hframe m) as [Hj He]; [rewrite elem_of_seq; lia|].
    by apply Hfiles.
  - intros Hpdf e Hclient. by apply do_parse_without_client.
Qed.

Lemma do_parse_isolates_recognition_failures_witness :
  exists total fs' tr,
    do_parse (CM := ascii_case) failing_recognition 10 11 sample_fs
    = (Return tt, fs', tr ++ [EvPrint (MsgParseDone total 10 11)])
    /\ error_text fs' 11 = Some (py "Expecting value").
Proof.
  destruct (proj1 (proj2 (do_parse_isolates_recognition_failures ascii_case
                            failing_recognition sample_fs 10 11)))
    as (total & fs' & tr & Hrun & Hpages).
  - reflexivity.
  - reflexivity.
  - intros n _. right. exists sample_png, []. split; reflexivity.
  - exists total, fs', tr. split; [exact Hrun|].
    destruct (Hpages 11%nat) as [_ Hfail]; [lia | |].
    + intros [x Hx]. vm_compute in Hx. discriminate.
    + destruct (Hfail sample_png [] undecodable eq_refl eq_refl) as (_ & He & _).
      exact He.
Defined.

(** ** Malformed step strings *)

Lemma dict_get_instrument_map (g : str -> str) label code :
  (label, code) ∈ INSTRUMENT_MAP ->
  dict_get code (map (fun item => (snd item, g (fst item))) INSTRUMENT_MAP)
  = Some (g label).
Proof.
  intros Hin. unfold INSTRUMENT_MAP in Hin.
  repeat (apply elem_of_cons in Hin as [[= -> ->]|Hin]; [reflexivity|]).
  by apply elem_of_nil in Hin.
Qed.

Lemma normalize_pattern_ignores_steps {CM : CaseMapping} raw st :
  is_Some (fst (normalize_pattern (with_raw_steps raw st)))
  <-> is_Some (fst (normalize_pattern raw)).
Proof.
  unfold normalize_pattern, with_raw_steps. cbn [raw_name raw_grid_width raw_steps].
  destruct (negb _); [done|]. destruct (contains _ _); [done|].
  destruct (name_to_id _); [done|].
  destruct (build_steps _ (default [] st)), (build_steps _ (default [] (raw_steps raw))).
  cbn [fst]. split; intros _; eexists; reflexivity.
Qed.

(** C6. For each label of the instrument map, a step string that is missing
    from the raw record, is not sixteen characters long or holds a character
    other than ["0"] and ["1"] is replaced by sixteen zeros in the track of
    that label.  [normalize_pattern] is a total function, and whether it
    accepts a record does not depend on the record's step strings; a page
    whose recognition call answered is written to its cache file and gets no
    error marker, whatever the step strings are. *)
Theorem normalize_pattern_repairs_malformed_steps (CM : CaseMapping)
    (raw : RawPattern) :
  (forall st,
      is_Some (fst (normalize_pattern (with_raw_steps raw st)))
      <-> is_Some (fst (normalize_pattern raw)))
  /\ (forall p out label code,
        normalize_pattern raw = (Some p, out) ->
        (label, code) ∈ INSTRUMENT_MAP ->
        malformed_step (dict_get label (default [] (raw_steps raw))) ->
        dict_get code (steps p) = Some ZEROS16)
  /\ (forall W fs d page_num png rest dps,
        output_dir fs = Some d ->
        page_json d !! page_num = None ->
        pdftoppm W page_num = ToolOutput (png :: rest) ->
        generate_content W png = Parsed dps ->
        run_result (process_page W page_num fs)
        = Return (normalized_patterns (map raw_of_drum_pattern dps))
        /\ output_file (run_fs (process_page W page_num fs)) page_num
           = Some (normalized_patterns (map raw_of_drum_pattern dps))
        /\ error_text (run_fs (process_page W page_num fs)) page_num
           = error_text fs page_num).
Proof.
  split; [intros st; apply normalize_pattern_ignores_steps|]. split.
  - intros p out label code Hn Hin Hbad.
    apply normalize_pattern_accepted in Hn as (_ & _ & _ & ->).
    rewrite (dict_get_instrument_map _ label code Hin).
    f_equal. by apply repaired_step_malformed.
  - intros W fs d n png rest dps Hd Hp Hr Hg.
    rewrite (process_page_parsed_run W fs d n png rest dps Hd Hp Hr Hg).
    unfold run_result, run_fs, output_file, error_text. cbn.
    rewrite lookup_insert_eq, Hd. done.
Qed.

Lemma normalize_pattern_repairs_malformed_steps_witness :
  exists p out,
    normalize_pattern (CM := ascii_case) rock_3 = (Some p, out)
    /\ dict_get (py "sd") (steps p) = Some ZEROS16
    /\ dict_get (py "ac") (steps p) = Some ZEROS16.
Proof.
  eexists; eexists. split; [reflexivity|].
  destruct (normalize_pattern_repairs_malformed_steps ascii_case rock_3)
    as (_ & Hfix & _).
  split.
  - apply (Hfix _ _ (py "SD") (py "sd") eq_refl).
    + apply (bool_decide_unpack ((py "SD", py "sd") ∈ INSTRUMENT_MAP)).
      by vm_compute.
    + left. vm_compute. discriminate.
  - apply (Hfix _ _ (py "AC") (py "ac") eq_refl).
    + apply (bool_decide_unpack ((py "AC", py "ac") ∈ INSTRUMENT_MAP)).
      by vm_compute.
    + exact I.
Defined.

(** ** Dictionaries and sorting *)

Lemma str_eqb_eq a b : str_eqb a b = true <-> a = b.
Proof.
  revert b. induction a as [|x a IH]; intros [|y b]; cbn; try done.
  rewrite andb_true_iff, N.eqb_eq, IH. split; [by intros [-> ->] | by intros [= -> ->]].
Qed.

Lemma str_eqb_refl a : str_eqb a a = true.
Proof. by apply str_eqb_eq. Qed.

Lemma str_eqb_neq a b : a <> b -> str_eqb a b = false.
Proof.
  intros H. destruct (str_eqb a b) eqn:E; [|done]. by apply str_eqb_eq in E.
Qed.

Lemma str_ltb_asym a b : str_ltb a b = true -> str_ltb b a = false.
Proof.
  revert b. induction a as [|x a IH]; intros [|y b]; cbn; try done.
  rewrite orb_true_iff, andb_true_iff, N.ltb_lt, N.eqb_eq.
  intros [Hlt|[-> Hab]].
  - apply orb_false_iff. split; [apply N.ltb_ge; lia|].
    apply andb_false_iff. left. apply N.eqb_neq. lia.
  - apply orb_false_iff. split; [apply N.ltb_irrefl|].
    rewrite N.eqb_refl. cbn. by apply IH.
Qed.

Section DictFacts.
Context {V : Type}.
Implicit Types (d : dict V) (k : str) (v : V).

Lemma dict_get_set_eq k v d : dict_get k (dict_set k v d) = Some v.
Proof.
  induction d as [|[k' v'] d IH]; cbn.
  - by rewrite str_eqb_refl.
  - destruct (str_eqb k k') eqn:E; cbn; by rewrite E.
Qed.

Lemma dict_get_set_ne k k' v d :
  k <> k' -> dict_get k' (dict_set k v d) = dict_get k' d.
Proof.
  intros Hne. induction d as [|[k0 v0] d IH]; cbn.
  - rewrite str_eqb_neq; done.
  - destruct (str_eqb k k0) eqn:E; cbn.
    + apply str_eqb_eq in E as <-. rewrite !(str_eqb_neq k' k); done.
    + by rewrite IH.
Qed.

Lemma dict_get_None k d : dict_get k d = None <-> k ∉ dict_keys d.
Proof.
  induction d as [|[k' v'] d IH]; cbn.
  - split; [intros _; apply not_elem_of_nil | done].
  - rewrite not_elem_of_cons, <- IH. destruct (str_eqb k k') eqn:E.
    + apply str_eqb_eq in E. split; [done | by intros [? _]].
    + split; [|by intros [_ ?]]. intros H. split; [|done].
      intros ->. by rewrite str_eqb_refl in E.
Qed.

Lemma dict_get_Some_elem k v d : dict_get k d = Some v -> (k, v) ∈ d.
Proof.
  induction d as [|[k' v'] d IH]; cbn; [done|].
  destruct (str_eqb k k') eqn:E.
  - apply str_eqb_eq in E as ->. intros [= ->]. left.
  - intros H. right. by apply IH.
Qed.

Lemma dict_elem_get k v d : NoDup (dict_keys d) -> (k, v) ∈ d -> dict_get k d = Some v.
Proof.
  induction d as [|[k' v'] d IH]; cbn; intros Hnd Hin.
  - by apply elem_of_nil in Hin.
  - apply NoDup_cons in Hnd as [Hk Hnd]. apply elem_of_cons in Hin as [[= -> ->]|Hin].
    + by rewrite str_eqb_refl.
    + rewrite str_eqb_neq; [by apply IH|]. intros ->. apply Hk.
      apply list_elem_of_fmap. by exists (k', v).
Qed.

Lemma dict_set_same k v d : dict_get k d = Some v -> dict_set k v d = d.
Proof.
  induction d as [|[k' v'] d IH]; cbn; [done|].
  destruct (str_eqb k k') eqn:E; [by intros [= ->]|].
  intros H. by rewrite IH.
Qed.

Lemma dict_set_fresh k v d : dict_get k d = None -> dict_set k v d = d ++ [(k, v)].
Proof.
  induction d as [|[k' v'] d IH]; cbn; [done|].
  destruct (str_eqb k k') eqn:E; [done|]. intros H. by rewrite IH.
Qed.

Lemma dict_keys_set k v d :
  dict_keys (dict_set k v d)
  = if dict_mem k d then dict_keys d else dict_keys d ++ [k].
Proof.
  unfold dict_mem, dict_keys. induction d as [|[k' v'] d IH]; cbn; [done|].
  destruct (str_eqb k k') eqn:E; cbn; [done|].
  rewrite IH. by destruct (dict_get k d).
Qed.

Lemma dict_keys_set_elem k k' v d :
  k' ∈ dict_keys (dict_set k v d) <-> k' = k \/ k' ∈ dict_keys d.
Proof.
  rewrite dict_keys_set. unfold dict_mem.
  destruct (dict_get k d) as [x|] eqn:E.
  - split; [by right|]. intros [->|]; [|done].
    destruct (decide (k ∈ dict_keys d)) as [|Hn]; [done|].
    apply dict_get_None in Hn. congruence.
  - rewrite elem_of_app, list_elem_of_singleton. tauto.
Qed.

Lemma dict_keys_set_NoDup k v d :
  NoDup (dict_keys d) -> NoDup (dict_keys (dict_set k v d)).
Proof.
  intros Hnd. rewrite dict_keys_set. unfold dict_mem.
  destruct (dict_get k d) as [x|] eqn:E; [done|].
  apply NoDup_app. split; [done|]. split; [|apply NoDup_singleton].
  intros x Hx ->%list_elem_of_singleton. by apply dict_get_None in E.
Qed.

Lemma dict_update_NoDup d other :
  NoDup (dict_keys d) -> NoDup (dict_keys (dict_update d other)).
Proof.
  unfold dict_update. revert d. induction other as [|[k v] r IH]; intros d Hd; cbn.
  - done.
  - by apply IH, dict_keys_set_NoDup.
Qed.

Lemma dict_update_get_other k d other :
  k ∉ dict_keys other -> dict_get k (dict_update d other) = dict_get k d.
Proof.
  unfold dict_update. revert d. induction other as [|[k0 v0] r IH]; intros d Hk; cbn.
  - done.
  - cbn in Hk. apply not_elem_of_cons in Hk as [Hne Hk].
    rewrite IH by done. by apply dict_get_set_ne.
Qed.

Lemma dict_update_get k v d other :
  NoDup (dict_keys other) -> (k, v) ∈ other ->
  dict_get k (dict_update d other) = Some v.
Proof.
  revert d. induction other as [|[k0 v0] r IH]; intros d Hnd Hin.
  - by apply elem_of_nil in Hin.
  - cbn in Hnd. apply NoDup_cons in Hnd as [Hk Hnd].
    apply elem_of_cons in Hin as [[= -> ->]|Hin].
    + change (dict_update d ((k0, v0) :: r)) with (dict_update (dict_set k0 v0 d) r).
      rewrite dict_update_get_other by done. apply dict_get_set_eq.
    + change (dict_update d ((k0, v0) :: r)) with (dict_update (dict_set k0 v0 d) r).
      by apply IH.
Qed.

Lemma dict_update_same d other :
  (forall k v, (k, v) ∈ other -> dict_get k d = Some v) ->
  dict_update d other = d.
Proof.
  unfold dict_update. induction other as [|[k v] r IH]; intros H; cbn; [done|].
  rewrite dict_set_same by (apply H; left). apply IH.
  intros k' v' Hin. apply H. by right.
Qed.

Lemma dict_update_keys_elem k d other :
  k ∈ dict_keys (dict_update d other) <-> k ∈ dict_keys d \/ k ∈ dict_keys other.
Proof.
  unfold dict_update. revert d. induction other as [|[k0 v0] r IH]; intros d.
  - cbn. rewrite elem_of_nil. tauto.
  - cbn [fold_left fst snd]. rewrite IH, dict_keys_set_elem.
    change (dict_keys ((k0, v0) :: r)) with (k0 :: dict_keys r).
    rewrite elem_of_cons. tauto.
Qed.
End DictFacts.

Section SortedFacts.
Context {A : Type} (key : A -> str).

Lemma insert_sorted_perm x l : insert_sorted key x l ≡ₚ x :: l.
Proof.
  induction l as [|y r IH]; cbn; [done|].
  destruct (str_ltb (key y) (key x)); [|done].
  rewrite IH. apply Permutation_swap.
Qed.

Lemma py_sorted_perm l : py_sorted key l ≡ₚ l.
Proof.
  induction l as [|x r IH]; cbn; [done|].
  rewrite insert_sorted_perm. by constructor.
Qed.

Lemma insert_sorted_in_order x l : in_order key l -> in_order key (insert_sorted key x l).
Proof.
  induction l as [|y r IH]; intros Hl; [done|].
  cbn [insert_sorted]. destruct (str_ltb (key y) (key x)) eqn:E.
  - specialize (IH ltac:(destruct r; [done | apply Hl])).
    destruct r as [|z r]; cbn [insert_sorted] in *.
    + split; [by apply str_ltb_asym | done].
    + destruct (str_ltb (key z) (key x)) eqn:E2.
      * split; [apply Hl | exact IH].
      * split; [by apply str_ltb_asym | exact IH].
  - split; done.
Qed.

Lemma py_sorted_in_order l : in_order key (py_sorted key l).
Proof.
  induction l as [|x r IH]; [done|]. by apply insert_sorted_in_order.
Qed.

Lemma py_sorted_id l : in_order key l -> py_sorted key l = l.
Proof.
  induction l as [|x r IH]; intros Hl; [done|].
  cbn [py_sorted foldr]. fold (py_sorted key r).
  rewrite IH by (destruct r; [done | apply Hl]).
  destruct r as [|y r]; [done|]. cbn [insert_sorted].
  destruct Hl as [-> _]. done.
Qed.

Lemma py_sorted_idem l : py_sorted key (py_sorted key l) = py_sorted key l.
Proof. apply py_sorted_id, py_sorted_in_order. Qed.

Lemma py_sorted_length l : length (py_sorted key l) = length l.
Proof. by rewrite py_sorted_perm. Qed.

Lemma py_sorted_elem x l : x ∈ py_sorted key l <-> x ∈ l.
Proof. by rewrite py_sorted_perm. Qed.
End SortedFacts.

(** ** The catalog merger *)

Lemma dict_set_keyed p d : keyed_by_id d -> keyed_by_id (dict_set (pattern_id p) p d).
Proof.
  unfold keyed_by_id. induction 1 as [|[k v] d Hk Hd IH]; cbn.
  - by repeat constructor.
  - destruct (str_eqb (pattern_id p) k) eqn:E.
    + apply str_eqb_eq in E. constructor; [by cbn | done].
    + by constructor.
Qed.

Lemma index_by_id_keyed l : forall d, keyed_by_id d -> keyed_by_id (index_by_id d l).
Proof.
  unfold index_by_id. induction l as [|p l IH]; intros d Hd; cbn; [done|].
  by apply IH, dict_set_keyed.
Qed.

Lemma index_by_id_NoDup l : forall d,
  NoDup (dict_keys d) -> NoDup (dict_keys (index_by_id d l)).
Proof.
  unfold index_by_id. induction l as [|p l IH]; intros d Hd; cbn; [done|].
  by apply IH, dict_keys_set_NoDup.
Qed.

Lemma index_by_id_keys l : forall d k,
  k ∈ dict_keys (index_by_id d l)
  <-> k ∈ dict_keys d \/ exists p, p ∈ l /\ pattern_id p = k.
Proof.
  unfold index_by_id. induction l as [|p l IH]; intros d k; cbn [fold_left].
  - split; [by left|]. intros [|(p & Hp & _)]; [done|]. by apply elem_of_nil in Hp.
  - rewrite IH, dict_keys_set_elem. split.
    + intros [[->|]|(q & Hq & <-)]; [right; exists p; split; [left|done] | by left |].
      right. exists q. split; [by right | done].
    + intros [|(q & Hq & <-)]; [left; by right|].
      apply elem_of_cons in Hq as [->|Hq]; [left; by left|].
      right. by exists q.
Qed.

Lemma index_by_id_fresh l : forall d,
  NoDup (dict_keys d ++ map pattern_id l) ->
  index_by_id d l = d ++ map (fun p => (pattern_id p, p)) l.
Proof.
  unfold index_by_id. induction l as [|p l IH]; intros d Hnd; cbn.
  - by rewrite app_nil_r.
  - cbn in Hnd. apply NoDup_app in Hnd as (Hd & Hdis & Hl).
    apply NoDup_cons in Hl as [Hp Hl].
    rewrite dict_set_fresh.
    2:{ apply dict_get_None. intros Hin. apply (Hdis _ Hin). left. }
    rewrite IH.
    + by rewrite <- app_assoc.
    + unfold dict_keys. rewrite map_app. cbn. rewrite <- app_assoc. cbn.
      apply NoDup_app. split; [done|]. split; [|by apply NoDup_cons].
      exact Hdis.
Qed.

Lemma collect_parsed_from files : forall d,
  keyed_by_id d -> NoDup (dict_keys d) ->
  let parsed := fold_left (fun parsed pf => index_by_id parsed (snd pf)) files d in
  keyed_by_id parsed /\ NoDup (dict_keys parsed)
  /\ forall k, k ∈ dict_keys parsed
       <-> k ∈ dict_keys d
           \/ exists (pf : nat * list Pattern) p,
                pf ∈ files /\ p ∈ snd pf /\ pattern_id p = k.
Proof.
  induction files as [|pf files IH]; intros d Hk Hnd; cbn.
  - split; [done|]. split; [done|]. intros k. split; [by left|].
    intros [|(pf & p & Hpf & _)]; [done|]. by apply elem_of_nil in Hpf.
  - destruct (IH (index_by_id d (snd pf)) (index_by_id_keyed _ _ Hk)
                (index_by_id_NoDup _ _ Hnd)) as (Hk' & Hnd' & Hkeys).
    split; [done|]. split; [done|]. intros k. rewrite Hkeys, index_by_id_keys.
    split.
    + intros [[|(p & Hp & <-)]|(pf' & p & Hpf & Hp & <-)].
      * by left.
      * right. exists pf, p. split; [left | done].
      * right. exists pf', p. split; [by right | done].
    + intros [|(pf' & p & Hpf & Hp & <-)]; [left; by left|].
      apply elem_of_cons in Hpf as [->|Hpf].
      * left. right. by exists p.
      * right. by exists pf', p.
Qed.

Lemma collect_parsed_facts files :
  keyed_by_id (collect_parsed files) /\ NoDup (dict_keys (collect_parsed files))
  /\ forall k, k ∈ dict_keys (collect_parsed files)
       <-> exists (pf : nat * list Pattern) p,
             pf ∈ files /\ p ∈ snd pf /\ pattern_id p = k.
Proof.
  destruct (collect_parsed_from files [] ltac:(constructor) ltac:(constructor))
    as (Hk & Hnd & Hkeys).
  split; [done|]. split; [done|]. intros k. unfold collect_parsed.
  rewrite Hkeys. split; [|by right]. intros [H|]; [|done].
  by apply elem_of_nil in H.
Qed.

Lemma keyed_values_ids d : keyed_by_id d -> map pattern_id (dict_values d) = dict_keys d.
Proof.
  unfold dict_values, dict_keys. induction 1 as [|[k v] d Hk _ IH]; cbn; [done|].
  cbn in Hk. by rewrite IH, Hk.
Qed.

Lemma dict_update_keyed d other :
  keyed_by_id d -> keyed_by_id other -> keyed_by_id (dict_update d other).
Proof.
  unfold dict_update. intros Hd Ho. revert d Hd.
  induction Ho as [|[k v] r Hk _ IH]; intros d Hd; cbn; [done|].
  cbn in Hk. subst k. by apply IH, dict_set_keyed.
Qed.

Section MergeTwice.
Context (parsed : dict Pattern) (existing_data : list Pattern).
Hypothesis parsed_keyed : keyed_by_id parsed.
Hypothesis parsed_NoDup : NoDup (dict_keys parsed).

Lemma merged_keyed : keyed_by_id (merged_dict parsed existing_data).
Proof. apply dict_update_keyed; [apply index_by_id_keyed; constructor | done]. Qed.

Lemma merged_NoDup : NoDup (dict_keys (merged_dict parsed existing_data)).
Proof. apply dict_update_NoDup, index_by_id_NoDup. constructor. Qed.

Lemma catalog_ids_NoDup :
  NoDup (map pattern_id (merged_catalog parsed existing_data)).
Proof.
  unfold merged_catalog. rewrite py_sorted_perm.
  rewrite keyed_values_ids by apply merged_keyed. apply merged_NoDup.
Qed.

Lemma catalog_index :
  index_by_id [] (merged_catalog parsed existing_data)
  = map (fun p => (pattern_id p, p)) (merged_catalog parsed existing_data).
Proof.
  apply (index_by_id_fresh (merged_catalog parsed existing_data) []).
  cbn [dict_keys map app]. apply catalog_ids_NoDup.
Qed.

Lemma catalog_index_keys :
  dict_keys (index_by_id [] (merged_catalog parsed existing_data))
  = map pattern_id (merged_catalog parsed existing_data).
Proof. rewrite catalog_index. unfold dict_keys. by rewrite map_map. Qed.

Lemma catalog_has_parsed k v :
  (k, v) ∈ parsed ->
  dict_get k (index_by_id [] (merged_catalog parsed existing_data)) = Some v.
Proof.
  intros Hin. apply dict_elem_get.
  { rewrite catalog_index_keys. apply catalog_ids_NoDup. }
  assert (k = pattern_id v) as ->.
  { unfold keyed_by_id in parsed_keyed. rewrite Forall_forall in parsed_keyed.
    apply (parsed_keyed (k, v) Hin). }
  rewrite catalog_index. apply list_elem_of_fmap. exists v. split; [done|].
  unfold merged_catalog. apply py_sorted_elem.
  pose proof (dict_update_get (pattern_id v) v (index_by_id [] existing_data)
                parsed parsed_NoDup Hin) as Hget.
  apply dict_get_Some_elem in Hget. unfold dict_values.
  apply list_elem_of_fmap. by exists (pattern_id v, v).
Qed.

(** Merging the same page results into the catalog a merge wrote gives that
    catalog again. *)
Lemma merged_catalog_idem :
  merged_catalog parsed (merged_catalog parsed existing_data)
  = merged_catalog parsed existing_data.
Proof.
  unfold merged_catalog at 1. unfold merged_dict at 1.
  rewrite (dict_update_same
             (index_by_id [] (merged_catalog parsed existing_data)) parsed)
    by (intros k v; apply catalog_has_parsed).
  rewrite catalog_index. unfold dict_values. rewrite map_map. cbn [snd].
  rewrite map_id. apply py_sorted_idem.
Qed.

Lemma catalog_covers_parsed :
  key_set parsed ⊆ key_set (index_by_id [] (merged_catalog parsed existing_data)).
Proof.
  intros k Hk. unfold key_set in *. apply elem_of_list_to_set in Hk.
  apply elem_of_list_to_set. unfold dict_keys in Hk.
  apply list_elem_of_fmap in Hk as ([k' v] & -> & Hin). cbn [fst].
  destruct (decide (k' ∈ dict_keys (index_by_id [] (merged_catalog parsed existing_data))))
    as [|Hn]; [done|].
  apply dict_get_None in Hn. by rewrite (catalog_has_parsed k' v Hin) in Hn.
Qed.
End MergeTwice.

Lemma print_unless_empty_run ids m fs :
  print_unless_empty ids m fs = (Return tt, fs, listed ids m).
Proof. unfold print_unless_empty, listed. by destruct (decide (ids = ∅)). Qed.

(** The run of [do_merge] once the cache directory holds a page file and the
    catalog file is there. *)
Lemma do_merge_run dry_run fs d existing_data :
  output_dir fs = Some d ->
  page_files d <> [] ->
  patterns_json fs = Some existing_data ->
  let parsed := collect_parsed (page_files d) in
  let existing_patterns := index_by_id [] existing_data in
  do_merge dry_run fs
  = if dry_run
    then (Return tt, fs,
          EvPrint (MsgFound (length parsed) (length (page_files d)))
          :: dry_run_report parsed existing_patterns)
    else (Return tt, with_patterns_json fs (merged_catalog parsed existing_data),
          EvPrint (MsgFound (length parsed) (length (page_files d)))
          :: merge_report parsed existing_patterns
               (length (merged_catalog parsed existing_data))).
Proof.
  intros Hd Hpf Hcat parsed existing_patterns.
  unfold do_merge. unfold mbind at 1, M_bind at 1, bind at 1. unfold get_fs at 1.
  rewrite Hd. destruct (page_files d) as [|pf pfs] eqn:Hfiles; [done|].
  rewrite Hcat. fold parsed. fold existing_patterns. destruct dry_run.
  - unfold mbind, M_bind, bind, print, emit.
    rewrite !print_unless_empty_run. reflexivity.
  - reflexivity.
Qed.

Lemma key_set_size {V} (d : dict V) : NoDup (dict_keys d) -> size (key_set d) = length d.
Proof.
  intros H. unfold key_set. rewrite size_list_to_set by done.
  unfold dict_keys. by rewrite length_map.
Qed.

(** A merge that returns has found the cache directory, a page file in it
    and the catalog file. *)
Lemma do_merge_returns dry_run fs fs1 tr1 :
  do_merge dry_run fs = (Return tt, fs1, tr1) ->
  exists d existing_data,
    output_dir fs = Some d /\ page_files d <> []
    /\ patterns_json fs = Some existing_data.
Proof.
  unfold do_merge. unfold mbind at 1, M_bind at 1, bind at 1. unfold get_fs at 1.
  destruct (output_dir fs) as [d|]; [|discriminate].
  destruct (page_files d) as [|pf pfs] eqn:Hpf; [discriminate|].
  destruct (patterns_json fs) as [existing_data|].
  - intros _. exists d, existing_data. rewrite Hpf. done.
  - discriminate.
Qed.

(** C1, as the design document has it, fails: merging page 9 of [sample_fs]
    into the empty catalog and merging again reports no new id, but reports
    the id of the page as updated once more. *)
Lemma second_merge_reports_updates :
  run_result (do_merge false sample_fs) = Return tt
  /\ run_trace (do_merge false (run_fs (do_merge false sample_fs)))
     = [EvPrint (MsgFound 1 1); EvPrint (MsgWrote 1); EvPrint (MsgAdded 0);
        EvPrint (MsgUpdatedCount 1); EvPrint (MsgKept 0)].
Proof. split; vm_compute; reflexivity. Qed.

(** C1, amended. After a merge that was not a dry run, merging the same page
    results again leaves the catalog, and every other file, exactly as the
    first merge wrote it and reports no id as new; it reports as updated
    every id of the page results, since an id counts as updated whenever the
    catalog has it, changed or not. *)
Theorem do_merge_twice (fs fs1 : FS) (tr1 : list Event) :
  do_merge false fs = (Return tt, fs1, tr1) ->
  exists d catalog,
    output_dir fs1 = Some d
    /\ patterns_json fs1 = Some catalog
    /\ let found := length (collect_parsed (page_files d)) in
       do_merge false fs1
       = (Return tt, fs1,
          [EvPrint (MsgFound found (length (page_files d)));
           EvPrint (MsgWrote (length catalog));
           EvPrint (MsgAdded 0);
           EvPrint (MsgUpdatedCount found);
           EvPrint (MsgKept (length catalog - found))]).
Proof.
  intros H.
  destruct (do_merge_returns false fs fs1 tr1 H) as (d & existing & Hd & Hpf & Hcat).
  rewrite (do_merge_run false fs d existing Hd Hpf Hcat) in H.
  injection H as <- _.
  destruct (collect_parsed_facts (page_files d)) as (Hkeyed & Hnd & _).
  set (parsed := collect_parsed (page_files d)) in *.
  set (catalog := merged_catalog parsed existing).
  assert (Hidem : merged_catalog parsed catalog = catalog)
    by apply (merged_catalog_idem parsed existing Hkeyed Hnd).
  assert (Hlen : length (index_by_id [] catalog) = length catalog).
  { unfold catalog. rewrite (catalog_index parsed existing Hkeyed).
    apply length_map. }
  pose proof (catalog_covers_parsed parsed existing Hkeyed Hnd) as Hsub.
  fold catalog in Hsub.
  assert (Hnew : key_set parsed ∖ key_set (index_by_id [] catalog) = ∅).
  { apply set_eq. intros k. rewrite elem_of_difference, elem_of_empty.
    split; [intros [Hk Hn]; apply Hn, Hsub, Hk | done]. }
  assert (Hupd : key_set parsed ∩ key_set (index_by_id [] catalog) = key_set parsed).
  { apply set_eq. intros k. rewrite elem_of_intersection.
    split; [by intros [Hk _] | intros Hk; split; [done | by apply Hsub]]. }
  exists d, catalog. split; [exact Hd|]. split; [reflexivity|]. cbn zeta.
  rewrite (do_merge_run false (with_patterns_json fs catalog) d catalog Hd Hpf eq_refl).
  fold parsed. unfold merge_report.
  rewrite Hidem, Hnew, Hupd, Hlen, size_empty, (key_set_size parsed Hnd).
  reflexivity.
Qed.

Lemma do_merge_twice_witness :
  exists d catalog,
    output_dir (run_fs (do_merge false sample_fs)) = Some d
    /\ patterns_json (run_fs (do_merge false sample_fs)) = Some catalog
    /\ do_merge false (run_fs (do_merge false sample_fs))
       = (Return tt, run_fs (do_merge false sample_fs),
          [EvPrint (MsgFound (length (collect_parsed (page_files d)))
                      (length (page_files d)));
           EvPrint (MsgWrote (length catalog));
           EvPrint (MsgAdded 0);
           EvPrint (MsgUpdatedCount (length (collect_parsed (page_files d))));
           EvPrint (MsgKept (length catalog
                             - length (collect_parsed (page_files d))))]).
Proof.
  apply (do_merge_twice sample_fs (run_fs (do_merge false sample_fs))
           (run_trace (do_merge false sample_fs))).
  vm_compute. reflexivity.
Defined.

Lemma sorted_ids_elem ids k : k ∈ sorted_ids ids <-> k ∈ ids.
Proof. unfold sorted_ids. by rewrite py_sorted_elem, elem_of_elements. Qed.

Lemma sorted_ids_length ids : length (sorted_ids ids) = size ids.
Proof. unfold sorted_ids. by rewrite py_sorted_length. Qed.

Lemma listed_ids_elem (ids : gset str) k :
  k ∈ (if decide (ids = ∅) then [] else sorted_ids ids) <-> k ∈ ids.
Proof.
  destruct (decide (ids = ∅)) as [->|_]; [|apply sorted_ids_elem].
  by rewrite elem_of_nil, elem_of_empty.
Qed.

Lemma listed_ids_length (ids : gset str) :
  length (if decide (ids = ∅) then [] else sorted_ids ids) = size ids.
Proof.
  destruct (decide (ids = ∅)) as [->|_]; [|apply sorted_ids_length].
  by rewrite size_empty.
Qed.

Lemma reported_new_dry_run parsed existing_patterns found files :
  reported_new (EvPrint (MsgFound found files)
                :: dry_run_report parsed existing_patterns)
  = let new_ids := key_set parsed ∖ key_set existing_patterns in
    if decide (new_ids = ∅) then [] else sorted_ids new_ids.
Proof.
  unfold dry_run_report, listed, reported_new. cbn zeta.
  destruct (decide (key_set parsed ∖ key_set existing_patterns = ∅));
    destruct (decide (key_set parsed ∩ key_set existing_patterns = ∅));
    cbn; by rewrite ?app_nil_r.
Qed.

Lemma reported_updated_dry_run parsed existing_patterns found files :
  reported_updated (EvPrint (MsgFound found files)
                    :: dry_run_report parsed existing_patterns)
  = let updated_ids := key_set parsed ∩ key_set existing_patterns in
    if decide (updated_ids = ∅) then [] else sorted_ids updated_ids.
Proof.
  unfold dry_run_report, listed, reported_updated. cbn zeta.
  destruct (decide (key_set parsed ∖ key_set existing_patterns = ∅));
    destruct (decide (key_set parsed ∩ key_set existing_patterns = ∅));
    cbn; by rewrite ?app_nil_r.
Qed.

Lemma reported_dry_run parsed existing_patterns found files :
  let tr := EvPrint (MsgFound found files) :: dry_run_report parsed existing_patterns in
  (forall k, k ∈ reported_new tr <-> k ∈ key_set parsed ∖ key_set existing_patterns)
  /\ (forall k, k ∈ reported_updated tr
                <-> k ∈ key_set parsed ∩ key_set existing_patterns)
  /\ length (reported_new tr) = size (key_set parsed ∖ key_set existing_patterns)
  /\ length (reported_updated tr) = size (key_set parsed ∩ key_set existing_patterns).
Proof.
  cbn zeta. rewrite reported_new_dry_run, reported_updated_dry_run. cbn zeta.
  split; [intros k; apply listed_ids_elem|].
  split; [intros k; apply listed_ids_elem|].
  split; apply listed_ids_length.
Qed.

Lemma key_set_parsed fs d k :
  output_dir fs = Some d ->
  k ∈ key_set (collect_parsed (page_files d)) <-> in_page_results fs k.
Proof.
  intros Hd. unfold key_set. rewrite elem_of_list_to_set.
  destruct (collect_parsed_facts (page_files d)) as (_ & _ & ->).
  unfold in_page_results, page_files. split.
  - intros ([n ps] & p & Hpf & Hp & Hk). apply py_sorted_elem in Hpf.
    apply elem_of_map_to_list in Hpf. by exists d, n, ps, p.
  - intros (d' & n & ps & p & Hd' & Hn & Hp & Hk).
    rewrite Hd in Hd'. injection Hd' as <-. exists (n, ps), p.
    split; [|done]. apply py_sorted_elem. by apply elem_of_map_to_list.
Qed.

Lemma key_set_catalog catalog k :
  k ∈ key_set (index_by_id [] catalog) <-> in_catalog catalog k.
Proof.
  unfold key_set. rewrite elem_of_list_to_set, index_by_id_keys. unfold in_catalog.
  split; [|by right]. intros [H|]; [|done]. by apply elem_of_nil in H.
Qed.

Lemma no_page_files fs d k :
  output_dir fs = Some d -> page_files d = [] -> ~ in_page_results fs k.
Proof.
  intros Hd Hpf (d' & n & ps & p & Hd' & Hn & _).
  rewrite Hd in Hd'. injection Hd' as <-.
  assert (Hin : (n, ps) ∈ page_files d).
  { apply py_sorted_elem. by apply elem_of_map_to_list. }
  rewrite Hpf in Hin. by apply elem_of_nil in Hin.
Qed.

(** C8. A dry-run merge changes no file, whatever the page results and the
    catalog are and however the run ends; and with a catalog there, the ids
    it lists as new are exactly those of the page results that the catalog
    does not have, the ids it lists as updated exactly those that both have,
    and the two counts it prints are the lengths of the two lists. *)
Theorem do_merge_dry_run_mutates_nothing (fs : FS) :
  run_fs (do_merge true fs) = fs
  /\ forall catalog, patterns_json fs = Some catalog ->
       let tr := run_trace (do_merge true fs) in
       (forall k, k ∈ reported_new tr
                  <-> in_page_results fs k /\ ~ in_catalog catalog k)
       /\ (forall k, k ∈ reported_updated tr
                     <-> in_page_results fs k /\ in_catalog catalog k)
       /\ (run_result (do_merge true fs) = Return tt ->
           EvPrint (MsgWouldAdd (length (reported_new tr))) ∈ tr
           /\ EvPrint (MsgWouldUpdate (length (reported_updated tr))) ∈ tr).
Proof.
  assert (Hnone : forall code m,
             (forall k, ~ in_page_results fs k) ->
             do_merge true fs = (Exit code, fs, [EvPrint m]) ->
             reported_new [EvPrint m] = [] -> reported_updated [EvPrint m] = [] ->
             run_fs (do_merge true fs) = fs
             /\ forall catalog, patterns_json fs = Some catalog ->
                  let tr := run_trace (do_merge true fs) in
                  (forall k, k ∈ reported_new tr
                             <-> in_page_results fs k /\ ~ in_catalog catalog k)
                  /\ (forall k, k ∈ reported_updated tr
                                <-> in_page_results fs k /\ in_catalog catalog k)
                  /\ (run_result (do_merge true fs) = Return tt ->
                      EvPrint (MsgWouldAdd (length (reported_new tr))) ∈ tr
                      /\ EvPrint (MsgWouldUpdate (length (reported_updated tr))) ∈ tr)).
  { intros code m Hno Hrun Hn Hu. rewrite Hrun. split; [done|].
    intros catalog _. unfold run_trace, run_result. cbn [fst snd]. rewrite Hn, Hu.
    split; [|split].
    - intros k. rewrite elem_of_nil. split; [done|]. intros [Hin _]. by apply (Hno k).
    - intros k. rewrite elem_of_nil. split; [done|]. intros [Hin _]. by apply (Hno k).
    - discriminate. }
  destruct (output_dir fs) as [d|] eqn:Hd.
  2:{ apply (Hnone 1%Z MsgNoOutputDir); [| |done..].
      - intros k (d' & n & ps & p & Hd' & _). congruence.
      - unfold do_merge. run_monad. by rewrite Hd. }
  destruct (page_files d) as [|pf pfs] eqn:Hpf.
  { apply (Hnone 1%Z MsgNoPageFiles); [| |done..].
    - intros k. by apply (no_page_files fs d k Hd Hpf).
    - unfold do_merge. run_monad. by rewrite Hd, Hpf. }
  clear Hnone.
  destruct (patterns_json fs) as [catalog|] eqn:Hcat.
  2:{ split; [|discriminate]. unfold do_merge. run_monad. by rewrite Hd, Hpf, Hcat. }
  assert (Hne : page_files d <> []) by (by rewrite Hpf).
  rewrite (do_merge_run true fs d catalog Hd Hne Hcat).
  split; [done|]. intros catalog' [= <-]. unfold run_trace, run_result. cbn [fst snd].
  destruct (reported_dry_run (collect_parsed (page_files d))
              (index_by_id [] catalog)
              (length (collect_parsed (page_files d))) (length (page_files d)))
    as (Hnew & Hupd & Hnl & Hul).
  split; [|split].
  - intros k. rewrite Hnew, elem_of_difference, (key_set_parsed fs d k Hd),
      key_set_catalog. done.
  - intros k. rewrite Hupd, elem_of_intersection, (key_set_parsed fs d k Hd),
      key_set_catalog. done.
  - intros _. rewrite Hnl, Hul. unfold dry_run_report. cbn [app].
    split; [do 2 right; left | do 3 right; left].
Qed.

Example dry_run_scenario :
  do_merge true scenario_fs
  = (Return tt, scenario_fs,
     [EvPrint (MsgFound 2 1); EvPrint MsgDryRun;
      EvPrint (MsgWouldAdd 1); EvPrint (MsgWouldUpdate 1);
      EvPrint (MsgNew [py "break-2"]); EvPrint (MsgUpdated [py "rock-3"])]).
Proof. vm_compute. reflexivity. Qed.

Lemma do_merge_dry_run_mutates_nothing_witness :
  run_fs (do_merge true scenario_fs) = scenario_fs
  /\ in_page_results scenario_fs (py "break-2")
  /\ ~ in_catalog [rock_3_pattern] (py "break-2").
Proof.
  destruct (do_merge_dry_run_mutates_nothing scenario_fs) as [Hfs Hrep].
  split; [exact Hfs|].
  destruct (Hrep [rock_3_pattern] eq_refl) as (Hnew & _ & _).
  apply Hnew.
  apply (bool_decide_unpack
           (py "break-2" ∈ reported_new (run_trace (do_merge true scenario_fs)))).
  vm_compute. exact I.
Defined.

(** ** More on identifiers *)

Lemma is_space_not_alnum c : is_space c = true -> is_alnum c = false.
Proof.
  unfold is_space, is_alnum, in_range.
  rewrite !orb_true_iff, !andb_true_iff, !N.leb_le, !N.eqb_eq. intros H.
  apply orb_false_iff. split; apply andb_false_iff; rewrite !N.leb_gt; lia.
Qed.

Lemma is_alnum_slug c : is_alnum c = true -> is_slug_char c = true.
Proof. unfold is_alnum, is_slug_char. intros ->. reflexivity. Qed.

Lemma slug_alphabet_cases c : slug_alphabet c -> is_alnum c = true \/ c = HYPHEN.
Proof.
  unfold slug_alphabet, is_alnum, in_range. cbn [N_of_ascii].
  rewrite orb_true_iff, !andb_true_iff, !N.leb_le.
  change (N_of_ascii "a") with 97. change (N_of_ascii "z") with 122.
  change (N_of_ascii "0") with 48. change (N_of_ascii "9") with 57. tauto.
Qed.

Lemma filter_sub_colon_from rep b s :
  is_alnum rep = false ->
  List.filter is_alnum (sub_colon_from rep b s) = List.filter is_alnum s.
Proof.
  intros Hrep. revert b. induction s as [|c r IH]; intros b; [done|].
  cbn [sub_colon_from]. destruct (b && is_space c) eqn:Hs.
  - apply andb_true_iff in Hs as [_ Hs]. cbn [List.filter].
    rewrite (is_space_not_alnum c Hs). apply IH.
  - destruct (N.eqb_spec c COLON) as [->|_]; cbn [List.filter].
    + rewrite Hrep. change (is_alnum COLON) with false. apply IH.
    + rewrite IH. reflexivity.
Qed.

Lemma filter_sub_non_slug s :
  List.filter is_alnum (sub_non_slug s) = List.filter is_alnum s.
Proof.
  unfold sub_non_slug. induction s as [|c r IH]; [done|]. cbn [map List.filter].
  rewrite IH. destruct (is_slug_char c) eqn:E; [done|].
  change (is_alnum HYPHEN) with false.
  destruct (is_alnum c) eqn:Ea; [|done]. apply is_alnum_slug in Ea. congruence.
Qed.

Lemma filter_collapse_hyphens_from prev s :
  List.filter is_alnum (collapse_hyphens_from prev s) = List.filter is_alnum s.
Proof.
  revert prev. induction s as [|c r IH]; intros prev; [done|].
  cbn [collapse_hyphens_from]. destruct (N.eqb_spec c HYPHEN) as [->|_].
  - cbn [List.filter]. change (is_alnum HYPHEN) with false.
    destruct prev; cbn [List.filter]; change (is_alnum HYPHEN) with false; apply IH.
  - cbn [List.filter]. by rewrite IH.
Qed.

Lemma filter_lstrip_hyphen s :
  List.filter is_alnum (lstrip_char HYPHEN s) = List.filter is_alnum s.
Proof.
  induction s as [|c r IH]; [done|]. cbn [lstrip_char].
  destruct (N.eqb_spec c HYPHEN) as [->|_]; [|done].
  cbn [List.filter]. change (is_alnum HYPHEN) with false. apply IH.
Qed.

Lemma filter_strip_hyphen s :
  List.filter is_alnum (strip_char HYPHEN s) = List.filter is_alnum s.
Proof.
  unfold strip_char, rstrip_char.
  rewrite List.filter_rev, filter_lstrip_hyphen, <- List.filter_rev, rev_involutive.
  apply filter_lstrip_hyphen.
Qed.

Lemma filter_name_to_id {CM : CaseMapping} (name : str) :
  List.filter is_alnum (name_to_id name) = List.filter is_alnum (str_lower name).
Proof.
  unfold name_to_id, collapse_hyphens, sub_colon.
  rewrite filter_strip_hyphen, filter_collapse_hyphens_from, filter_sub_non_slug.
  by apply filter_sub_colon_from.
Qed.

(** The result of [name_to_id] has the shape of an identifier. *)
Lemma name_to_id_shape {CM : CaseMapping} (name : str) : slug_shaped (name_to_id name).
Proof.
  unfold slug_shaped, name_to_id.
  set (t := collapse_hyphens (sub_non_slug (sub_colon HYPHEN (str_lower name)))).
  assert (Ht : Forall slug_alphabet t).
  { apply collapse_hyphens_from_alphabet, sub_non_slug_alphabet. }
  assert (Hd : ~ doubled_hyphen t).
  { apply no_doubled_sound, collapse_hyphens_from_no_doubled. }
  destruct (strip_char_infix HYPHEN t) as [p [q Hpq]].
  split; [|split; [|split]].
  - rewrite Hpq in Ht. apply Forall_app in Ht as [_ Ht].
    by apply Forall_app in Ht as [Ht _].
  - apply strip_char_head.
  - apply rstrip_char_last.
  - intros H. apply Hd. rewrite Hpq. by apply doubled_hyphen_app.
Qed.

(** X1. [name_to_id] neither loses nor adds a letter or digit: the letters
    [a-z] and digits of its result are those of the lowercased name, in the
    same order. *)
Theorem name_to_id_keeps_alnum (CM : CaseMapping) (name : str) :
  List.filter is_alnum (name_to_id name) = List.filter is_alnum (str_lower name).
Proof. apply filter_name_to_id. Qed.

Lemma name_to_id_empty_iff_core {CM : CaseMapping} (name : str) :
  name_to_id name = [] <-> List.filter is_alnum (str_lower name) = [].
Proof.
  rewrite <- filter_name_to_id. split; [by intros ->|].
  destruct (name_to_id_shape name) as (Ha & Hh & _ & _).
  destruct (name_to_id name) as [|c r]; [done|]. intros Hf.
  apply Forall_cons in Ha as [Hc _].
  destruct (slug_alphabet_cases c Hc) as [Hc'| ->]; [|done].
  cbn [List.filter] in Hf. by rewrite Hc' in Hf.
Qed.

(** X2. The identifier is empty exactly when the lowercased name has no
    letter [a-z] and no digit; these are the names [normalize_pattern]
    rejects for want of an id. *)
Theorem name_to_id_empty_iff (CM : CaseMapping) (name : str) :
  name_to_id name = [] <-> List.filter is_alnum (str_lower name) = [].
Proof. apply name_to_id_empty_iff_core. Qed.

Lemma slug_alphabet_plain c :
  slug_alphabet c -> is_slug_char c = true /\ c <> COLON /\ is_space c = false.
Proof.
  intros H. split; [by apply is_slug_char_spec|].
  destruct (slug_alphabet_cases c H) as [Ha| ->]; [|done].
  split.
  - intros ->. discriminate.
  - destruct (is_space c) eqn:E; [|done].
    apply is_space_not_alnum in E. congruence.
Qed.

Lemma sub_colon_from_plain rep b s :
  Forall slug_alphabet s -> sub_colon_from rep b s = s.
Proof.
  intros H. revert b. induction H as [|c r Hc _ IH]; intros b; [done|].
  destruct (slug_alphabet_plain c Hc) as (_ & Hcolon & Hspace).
  cbn [sub_colon_from]. rewrite Hspace, andb_false_r.
  destruct (N.eqb_spec c COLON); [done|]. by rewrite IH.
Qed.

Lemma sub_non_slug_plain s : Forall slug_alphabet s -> sub_non_slug s = s.
Proof.
  unfold sub_non_slug. induction 1 as [|c r Hc _ IH]; [done|].
  cbn [map]. rewrite IH. by destruct (slug_alphabet_plain c Hc) as (-> & _).
Qed.

Lemma doubled_hyphen_tail c s : doubled_hyphen s -> doubled_hyphen (c :: s).
Proof. intros (l1 & l2 & ->). by exists (c :: l1), l2. Qed.

Lemma collapse_hyphens_from_plain prev s :
  ~ doubled_hyphen s ->
  (prev = true -> head s <> Some HYPHEN) ->
  collapse_hyphens_from prev s = s.
Proof.
  revert prev. induction s as [|c r IH]; intros prev Hd Hp; [done|].
  cbn [collapse_hyphens_from]. destruct (N.eqb_spec c HYPHEN) as [->|Hc].
  - destruct prev; [by destruct Hp|]. rewrite IH; [done| |].
    + intros H. by apply Hd, doubled_hyphen_tail.
    + intros _ Hh. apply Hd. destruct r as [|y t]; [done|].
      injection Hh as ->. by exists [], t.
  - rewrite IH; [done| |done]. intros H. by apply Hd, doubled_hyphen_tail.
Qed.

Lemma lstrip_char_plain c s : head s <> Some c -> lstrip_char c s = s.
Proof.
  destruct s as [|x r]; [done|]. cbn. destruct (N.eqb_spec x c) as [->|]; done.
Qed.

Lemma head_rev (s : str) : head (rev s) = last s.
Proof. by rewrite <- last_rev, rev_involutive. Qed.

Lemma strip_char_plain c s :
  head s <> Some c -> last s <> Some c -> strip_char c s = s.
Proof.
  intros Hh Hl. unfold strip_char, rstrip_char. rewrite (lstrip_char_plain c s Hh).
  rewrite lstrip_char_plain by (by rewrite head_rev). apply rev_involutive.
Qed.

(** A string of the shape of an identifier, which lowercasing leaves alone,
    is its own identifier. *)
Lemma name_to_id_fixed {CM : CaseMapping} (s : str) :
  slug_shaped s -> str_lower s = s -> name_to_id s = s.
Proof.
  intros (Ha & Hh & Hl & Hd) Hlow. unfold name_to_id, sub_colon, collapse_hyphens.
  rewrite Hlow, (sub_colon_from_plain _ _ s Ha), (sub_non_slug_plain s Ha).
  rewrite collapse_hyphens_from_plain by done. by apply strip_char_plain.
Qed.

(** X3. Identifiers are fixed points: when lowercasing leaves text over
    [a-z0-9-] alone, as Python's [str.lower] does, applying [name_to_id] to
    an identifier it produced gives the same identifier. *)
Theorem name_to_id_idempotent (CM : CaseMapping) (name : str) :
  (forall s, Forall slug_alphabet s -> str_lower s = s) ->
  name_to_id (name_to_id name) = name_to_id name.
Proof.
  intros Hlow. apply name_to_id_fixed; [apply name_to_id_shape|].
  apply Hlow. apply name_to_id_shape.
Qed.

Lemma ascii_lower_fixes_slugs (s : str) :
  Forall slug_alphabet s -> str_lower (CaseMapping := ascii_case) s = s.
Proof.
  cbn [str_lower ascii_case]. induction 1 as [|c r Hc _ IH]; [done|].
  cbn [map]. rewrite IH. f_equal. unfold ascii_lower_char.
  destruct (in_range 65 90 c) eqn:E; [|done]. exfalso.
  unfold in_range in E. apply andb_true_iff in E as [E1 E2].
  apply N.leb_le in E1, E2.
  destruct (slug_alphabet_cases c Hc) as [Ha| ->]; [|by vm_compute in E1].
  unfold is_alnum, in_range in Ha.
  rewrite orb_true_iff, !andb_true_iff, !N.leb_le in Ha. lia.
Qed.

Lemma name_to_id_idempotent_witness :
  name_to_id (CM := ascii_case) (name_to_id (CM := ascii_case) (py "New Wave: 1"))
  = py "new-wave-1".
Proof.
  rewrite (name_to_id_idempotent ascii_case (py "New Wave: 1")
             ascii_lower_fixes_slugs).
  reflexivity.
Defined.

(** ** More on [normalize_pattern] *)

Lemma starts_with_spec p s : starts_with p s = true <-> exists post, s = p ++ post.
Proof.
  revert s. induction p as [|a p IH]; intros s; cbn.
  - split; [by exists s | done].
  - destruct s as [|b s].
    + split; [done | by intros (post & H)].
    + rewrite andb_true_iff, N.eqb_eq, IH. split.
      * intros (-> & post & ->). by exists post.
      * intros (post & [= -> ->]). split; [done | by exists post].
Qed.

Lemma contains_spec needle s : contains needle s = true <-> substring needle s.
Proof.
  unfold substring. induction s as [|c r IH]; cbn [contains].
  - rewrite orb_false_r, starts_with_spec. split.
    + intros (post & H). by exists [], post.
    + intros (pre & post & H). symmetry in H.
      apply app_eq_nil in H as [-> H]. exists post. by rewrite H.
  - rewrite orb_true_iff, starts_with_spec, IH. split.
    + intros [(post & ->)|(pre & post & ->)]; [by exists [], post|].
      by exists (c :: pre), post.
    + intros ([|x pre] & post & H).
      * left. exists post. exact H.
      * right. injection H as _ ->. by exists pre, post.
Qed.

(** X4. [normalize_pattern] accepts a record exactly when its [grid_width]
    is 16, its lowercased name does not contain ["break"] and has a letter
    [a-z] or a digit; the pattern it returns then has the id and the display
    name that [name_to_id] and [clean_name] give for the raw name. *)
Theorem normalize_pattern_accepts_iff (CM : CaseMapping) (raw : RawPattern) :
  let name := default [] (raw_name raw) in
  (is_Some (fst (normalize_pattern raw))
   <-> raw_grid_width raw = Some 16%Z
       /\ ~ substring (py "break") (str_lower name)
       /\ List.filter is_alnum (str_lower name) <> [])
  /\ forall p, fst (normalize_pattern raw) = Some p ->
       pattern_id p = name_to_id name /\ display_name p = clean_name name.
Proof.
  cbn zeta. unfold normalize_pattern.
  rewrite <- contains_spec, <- name_to_id_empty_iff_core.
  assert (Hw : (default 0%Z (raw_grid_width raw) =? 16)%Z = true
               <-> raw_grid_width raw = Some 16%Z).
  { destruct (raw_grid_width raw) as [w|]; cbn; [|done].
    rewrite Z.eqb_eq. split; [by intros -> | by intros [= ->]]. }
  destruct (default 0%Z (raw_grid_width raw) =? 16)%Z; cbn [negb].
  2:{ split; [|discriminate]. split; [by intros [x Hx]|].
      intros [H _]. by apply Hw in H. }
  destruct (contains _ _); cbn [fst].
  { split; [|discriminate]. split; [by intros [x Hx]|]. by intros (_ & H & _). }
  destruct (name_to_id (default [] (raw_name raw))) as [|c r] eqn:Hid.
  { split; [|discriminate]. split; [by intros [x Hx]|]. by intros (_ & _ & H). }
  destruct (build_steps _ _) as [st o]. cbn [fst]. split.
  - split; [|by eexists]. intros _. split; [by apply Hw|]. by split.
  - intros p [= <-]. by split.
Qed.

Lemma normalize_pattern_accepts_iff_witness :
  is_Some (fst (normalize_pattern (CM := ascii_case) rock_3)).
Proof.
  apply (proj2 (proj1 (normalize_pattern_accepts_iff ascii_case rock_3))).
  split; [reflexivity|]. split.
  - intros H. apply contains_spec in H. by vm_compute in H.
  - by vm_compute.
Defined.

Lemma repaired_step_kept rs k s :
  dict_get k rs = Some s -> bit_string16 s -> repaired_step rs k = s.
Proof.
  intros Hk Hs. unfold repaired_step. rewrite Hk. cbn [default].
  apply valid_step_str_spec in Hs. unfold default. cbn. by rewrite Hs.
Qed.

(** X5. A well-formed step string of the raw record reaches the catalog
    unchanged, in the track its label is mapped to; and the tracks of an
    accepted record are written in the order of the instrument map. *)
Theorem normalize_pattern_keeps_valid_steps (CM : CaseMapping)
    (raw : RawPattern) (p : Pattern) (out : list Msg) :
  normalize_pattern raw = (Some p, out) ->
  dict_keys (steps p) = map snd INSTRUMENT_MAP
  /\ forall label code s,
       (label, code) ∈ INSTRUMENT_MAP ->
       dict_get label (default [] (raw_steps raw)) = Some s ->
       bit_string16 s ->
       dict_get code (steps p) = Some s.
Proof.
  intros H. apply normalize_pattern_accepted in H as (_ & _ & _ & ->). split.
  - unfold dict_keys. by rewrite map_map.
  - intros label code s Hin Hget Hs.
    rewrite (dict_get_instrument_map _ label code Hin).
    f_equal. by apply repaired_step_kept.
Qed.

Lemma normalize_pattern_keeps_valid_steps_witness :
  exists p out,
    normalize_pattern (CM := ascii_case) rock_3 = (Some p, out)
    /\ dict_get (py "bd") (steps p) = Some (py "1000100010001000").
Proof.
  eexists; eexists. split; [reflexivity|].
  destruct (normalize_pattern_keeps_valid_steps ascii_case rock_3 _ _ eq_refl)
    as [_ Hkeep].
  apply (Hkeep (py "BD") (py "bd")).
  - apply (bool_decide_unpack ((py "BD", py "bd") ∈ INSTRUMENT_MAP)). by vm_compute.
  - reflexivity.
  - apply valid_step_str_spec. reflexivity.
Defined.

Lemma build_steps_out_fold name rs l : forall acc,
  snd (fold_left
         (fun (acc : dict str * list Msg) (item : str * str) =>
            let '(steps, out) := acc in
            let '(pdf_key, track_id) := item in
            let step_str := default ZEROS16 (dict_get pdf_key rs) in
            if valid_step_str step_str
            then (dict_set track_id step_str steps, out)
            else (dict_set track_id ZEROS16 steps,
                  out ++ [MsgInvalidSteps pdf_key name step_str]))
         l acc)
  = snd acc ++ map (fun r => MsgInvalidSteps (fst r) name (snd r)) (invalid_rows rs l).
Proof.
  induction l as [|[k t] l IH]; intros [st out].
  - cbn. by rewrite app_nil_r.
  - cbn [fold_left]. unfold invalid_rows. cbn [omap list_omap fst].
    fold (invalid_rows rs l). destruct (dict_get k rs) as [s|] eqn:Hk; cbn [default].
    + unfold default. cbn [from_option id]. destruct (valid_step_str s) eqn:Hv.
      * rewrite IH. reflexivity.
      * rewrite IH. cbn [snd map]. by rewrite <- app_assoc.
    + unfold default. cbn [from_option].
      change (valid_step_str ZEROS16) with true. cbn iota. rewrite IH. reflexivity.
Qed.

Lemma build_steps_snd name rs :
  snd (build_steps name rs)
  = map (fun r => MsgInvalidSteps (fst r) name (snd r)) (invalid_rows rs INSTRUMENT_MAP).
Proof. unfold build_steps. by rewrite build_steps_out_fold. Qed.

Lemma invalid_rows_elem rs l label s :
  (label, s) ∈ invalid_rows rs l
  <-> (exists code, (label, code) ∈ l)
      /\ dict_get label rs = Some s /\ valid_step_str s = false.
Proof.
  unfold invalid_rows. rewrite list_elem_of_omap. split.
  - intros ([k t] & Hin & H). cbn [fst] in H.
    destruct (dict_get k rs) as [s'|] eqn:Hk; [|done].
    destruct (valid_step_str s') eqn:Hv; [done|]. injection H as <- <-.
    split; [by exists t | done].
  - intros ((code & Hin) & Hk & Hv). exists (label, code). split; [done|].
    cbn [fst]. by rewrite Hk, Hv.
Qed.

(** X6. The warnings of [normalize_pattern]: one is printed for a label of
    the instrument map exactly when the raw record has a step string for it
    that is not sixteen characters of ["0"] and ["1"]; a row that is missing
    altogether is filled with zeros without a warning. *)
Theorem normalize_pattern_warnings (CM : CaseMapping)
    (raw : RawPattern) (p : Pattern) (out : list Msg) :
  normalize_pattern raw = (Some p, out) ->
  let name := default [] (raw_name raw) in
  let raw_steps := default [] (raw_steps raw) in
  out = map (fun r => MsgInvalidSteps (fst r) name (snd r))
            (invalid_rows raw_steps INSTRUMENT_MAP)
  /\ forall label s,
       MsgInvalidSteps label name s ∈ out
       <-> (exists code, (label, code) ∈ INSTRUMENT_MAP)
           /\ dict_get label raw_steps = Some s /\ ~ bit_string16 s.
Proof.
  intros H. cbn zeta.
  assert (Hout : out = map (fun r => MsgInvalidSteps (fst r)
                                       (default [] (raw_name raw)) (snd r))
                         (invalid_rows (default [] (raw_steps raw)) INSTRUMENT_MAP)).
  { unfold normalize_pattern in H.
    destruct (negb _); [discriminate|]. destruct (contains _ _); [discriminate|].
    destruct (name_to_id _); [discriminate|].
    pose proof (build_steps_snd (default [] (raw_name raw))
                  (default [] (raw_steps raw))) as Hb.
    destruct (build_steps _ _) as [st o]. cbn [snd] in Hb.
    injection H as _ <-. exact Hb. }
  split; [exact Hout|]. intros label s. rewrite Hout, list_elem_of_fmap. split.
  - intros ([l' s'] & [= -> ->] & Hin). apply invalid_rows_elem in Hin
      as (Hc & Hk & Hv). repeat split; [done..|].
    intros Hs. apply valid_step_str_spec in Hs. congruence.
  - intros (Hc & Hk & Hs). exists (label, s). split; [done|].
    apply invalid_rows_elem. repeat split; [done..|].
    destruct (valid_step_str s) eqn:Hv; [|done]. by apply valid_step_str_spec in Hv.
Qed.

Lemma normalize_pattern_warnings_witness :
  MsgInvalidSteps (py "SD") (py "Rock: 3") (py "12")
  ∈ snd (normalize_pattern (CM := ascii_case) rock_3).
Proof.
  pose proof (normalize_pattern_warnings ascii_case rock_3 _ _ eq_refl) as [_ H].
  apply (proj2 (H (py "SD") (py "12"))). split; [|split].
  - exists (py "sd").
    apply (bool_decide_unpack ((py "SD", py "sd") ∈ INSTRUMENT_MAP)). by vm_compute.
  - reflexivity.
  - intros [Hl _]. discriminate.
Defined.

(** ** Later entries win *)

Lemma fold_dict_set_get {A V} (key : A -> str) (val : A -> V) k l : forall d,
  dict_get k (fold_left (fun d x => dict_set (key x) (val x) d) l d)
  = match last_with_key key k l with
    | Some x => Some (val x)
    | None => dict_get k d
    end.
Proof.
  unfold last_with_key. induction l as [|x r IH]; intros d; [done|].
  cbn [fold_left List.filter]. rewrite IH.
  destruct (str_eqb (key x) k) eqn:E.
  - apply str_eqb_eq in E as <-.
    destruct (List.filter _ r) as [|y t] eqn:Hf.
    + cbn. apply dict_get_set_eq.
    + change (last (x :: y :: t)) with (last (y :: t)).
      destruct (last (y :: t)) eqn:El; [done|]. by apply last_None in El.
  - destruct (last (List.filter _ r)); [done|].
    apply dict_get_set_ne. intros H. rewrite H in E. by rewrite str_eqb_refl in E.
Qed.

Lemma index_by_id_get k l d :
  dict_get k (index_by_id d l)
  = match last_with_key pattern_id k l with
    | Some p => Some p
    | None => dict_get k d
    end.
Proof. apply (fold_dict_set_get pattern_id (fun p => p)). Qed.

Lemma collect_parsed_flat files : forall d,
  fold_left (fun parsed (pf : nat * list Pattern) => index_by_id parsed (snd pf)) files d
  = index_by_id d (concat (map snd files)).
Proof.
  induction files as [|pf files IH]; intros d; [done|].
  cbn [fold_left map concat]. rewrite IH. unfold index_by_id.
  by rewrite fold_left_app.
Qed.

(** X7. The raw record the driver hands to [normalize_pattern] always has a
    name, a grid width and a steps dictionary; in that dictionary an
    instrument id that occurs several times in the answer of the recognition
    service keeps the hits of its last occurrence, and an id that does not
    occur has no entry. *)
Theorem steps_of_instruments_last_wins (p : DrumPattern) (k : str) :
  raw_name (raw_of_drum_pattern p) = Some (dp_name p)
  /\ raw_grid_width (raw_of_drum_pattern p) = Some (dp_grid_width p)
  /\ exists st,
       raw_steps (raw_of_drum_pattern p) = Some st
       /\ dict_get k st = hits <$> last_with_key instrument_id k (instruments p).
Proof.
  split; [done|]. split; [done|]. eexists. split; [reflexivity|].
  unfold steps_of_instruments.
  rewrite (fold_dict_set_get instrument_id hits k (instruments p) []).
  by destruct (last_with_key instrument_id k (instruments p)).
Qed.

(** X8. Later pages win: the pattern the merger holds for an id after
    reading the page files is the last pattern with that id in the page
    files, read in the order of their names and each from top to bottom. *)
Theorem collect_parsed_later_pages_win (files : list (nat * list Pattern)) (k : str) :
  dict_get k (collect_parsed files)
  = last_with_key pattern_id k (concat (map snd files)).
Proof.
  unfold collect_parsed. rewrite collect_parsed_flat, index_by_id_get.
  by destruct (last_with_key pattern_id k (concat (map snd files))).
Qed.

Lemma find_by_id_spec k v l :
  NoDup (map pattern_id l) ->
  find_by_id k l = Some v <-> v ∈ l /\ pattern_id v = k.
Proof.
  unfold find_by_id. induction l as [|x l IH]; intros Hnd; cbn [List.find map].
  - split; [done|]. intros [H _]. by apply elem_of_nil in H.
  - cbn [map] in Hnd. apply NoDup_cons in Hnd as [Hx Hnd].
    destruct (str_eqb (pattern_id x) k) eqn:E.
    + apply str_eqb_eq in E. split.
      * intros [= <-]. split; [left | done].
      * intros [Hin Hk]. apply elem_of_cons in Hin as [->|Hin]; [done|].
        destruct Hx. rewrite E, <- Hk. by apply list_elem_of_fmap_2.
    + rewrite (IH Hnd), elem_of_cons. split; [intros [? ?]; by split; [right|]|].
      intros [[->|Hin] Hk]; [|done]. apply str_eqb_eq in Hk. congruence.
Qed.

Lemma dict_update_get_full {V} k (d other : dict V) :
  NoDup (dict_keys other) ->
  dict_get k (dict_update d other)
  = match dict_get k other with
    | Some v => Some v
    | None => dict_get k d
    end.
Proof.
  intros Hnd. destruct (dict_get k other) as [v|] eqn:E.
  - apply dict_update_get; [done|]. by apply dict_get_Some_elem.
  - apply dict_update_get_other. by apply dict_get_None.
Qed.

Lemma keyed_elem (d : dict Pattern) k v :
  keyed_by_id d -> (k, v) ∈ d <-> v ∈ dict_values d /\ pattern_id v = k.
Proof.
  unfold keyed_by_id, dict_values. rewrite Forall_forall. intros Hk. split.
  - intros Hin. split; [by apply (list_elem_of_fmap_2 snd _ (k, v))|].
    symmetry. apply (Hk (k, v) Hin).
  - intros [Hin <-]. apply list_elem_of_fmap in Hin as ([k' v'] & -> & Hin).
    pose proof (Hk (k', v') Hin) as E. cbn [fst snd] in *. by rewrite <- E.
Qed.

(** The sorted values of a dictionary keyed by id hold, for each id, what
    the dictionary holds. *)
Lemma find_in_sorted_values (d : dict Pattern) k :
  keyed_by_id d -> NoDup (dict_keys d) ->
  find_by_id k (py_sorted pattern_id (dict_values d)) = dict_get k d.
Proof.
  intros Hk Hnd. apply option_eq. intros v.
  rewrite find_by_id_spec.
  2:{ rewrite py_sorted_perm, keyed_values_ids; done. }
  rewrite py_sorted_elem, <- (keyed_elem d k v Hk). split.
  - by apply dict_elem_get.
  - apply dict_get_Some_elem.
Qed.

(** X9. What a merge writes: only [patterns.json] changes; the new catalog
    is sorted by id and has every id once; and its entry for an id is the
    last pattern with that id in the page files when they have one, and
    otherwise the last pattern with that id in the old catalog. *)
Theorem do_merge_last_writer_wins (fs fs1 : FS) (tr : list Event) :
  do_merge false fs = (Return tt, fs1, tr) ->
  exists d existing_data written,
    output_dir fs = Some d
    /\ patterns_json fs = Some existing_data
    /\ fs1 = with_patterns_json fs written
    /\ NoDup (map pattern_id written)
    /\ in_order pattern_id written
    /\ forall k,
         find_by_id k written
         = match last_with_key pattern_id k (concat (map snd (page_files d))) with
           | Some p => Some p
           | None => last_with_key pattern_id k existing_data
           end.
Proof.
  intros H.
  destruct (do_merge_returns false fs fs1 tr H) as (d & existing & Hd & Hpf & Hcat).
  rewrite (do_merge_run false fs d existing Hd Hpf Hcat) in H.
  injection H as <- _.
  destruct (collect_parsed_facts (page_files d)) as (Hkeyed & Hnd & _).
  exists d, existing, (merged_catalog (collect_parsed (page_files d)) existing).
  split; [done|]. split; [done|]. split; [done|].
  split; [by apply catalog_ids_NoDup|].
  split; [apply py_sorted_in_order|].
  intros k. unfold merged_catalog.
  rewrite find_in_sorted_values
    by (by apply merged_keyed || apply merged_NoDup).
  unfold merged_dict. rewrite dict_update_get_full by done.
  unfold collect_parsed. rewrite collect_parsed_flat, !index_by_id_get.
  cbn [dict_get].
  destruct (last_with_key pattern_id k (concat (map snd (page_files d)))); [done|].
  by destruct (last_with_key pattern_id k existing).
Qed.

Lemma do_merge_last_writer_wins_witness :
  exists written,
    run_fs (do_merge false scenario_fs) = with_patterns_json scenario_fs written
    /\ find_by_id (py "rock-3") written = Some rock_3_changed.
Proof.
  destruct (do_merge_last_writer_wins scenario_fs
              (run_fs (do_merge false scenario_fs))
              (run_trace (do_merge false scenario_fs)))
    as (d & existing & written & Hd & Hex & Hfs & _ & _ & Hfind).
  - vm_compute. reflexivity.
  - exists written. split; [exact Hfs|]. rewrite Hfind.
    injection Hd as <-. vm_compute. reflexivity.
Defined.

(** ** The report of a merge *)

Lemma size_split (P E : gset str) : size P = (size (P ∖ E) + size (P ∩ E))%nat.
Proof.
  rewrite <- size_union by set_solver.
  by rewrite difference_union_intersection_L.
Qed.

Lemma merged_dict_length parsed existing_data :
  NoDup (dict_keys parsed) ->
  length (merged_dict parsed existing_data)
  = (length (index_by_id [] existing_data)
     + size (key_set parsed ∖ key_set (index_by_id [] existing_data)))%nat.
Proof.
  intros Hnd.
  rewrite <- (key_set_size (merged_dict parsed existing_data))
    by apply merged_NoDup.
  rewrite <- (key_set_size (index_by_id [] existing_data))
    by (apply index_by_id_NoDup; constructor).
  rewrite <- size_union_alt. f_equal. apply set_eq. intros k.
  unfold key_set, merged_dict.
  rewrite elem_of_union, !elem_of_list_to_set. apply dict_update_keys_elem.
Qed.

(** X10. The four counts a merge prints add up: the patterns found in the
    page files are the added ones and the updated ones, and the patterns
    written are the added, the updated and the kept ones; the number written
    is the length of the new catalog. *)
Theorem do_merge_report_adds_up (fs fs1 : FS) (tr : list Event) :
  do_merge false fs = (Return tt, fs1, tr) ->
  exists found files wrote added updated kept written,
    tr = [EvPrint (MsgFound found files); EvPrint (MsgWrote wrote);
          EvPrint (MsgAdded added); EvPrint (MsgUpdatedCount updated);
          EvPrint (MsgKept kept)]
    /\ found = (added + updated)%nat
    /\ wrote = (added + updated + kept)%nat
    /\ patterns_json fs1 = Some written
    /\ length written = wrote.
Proof.
  intros H.
  destruct (do_merge_returns false fs fs1 tr H) as (d & existing & Hd & Hpf & Hcat).
  rewrite (do_merge_run false fs d existing Hd Hpf Hcat) in H.
  injection H as <- <-.
  destruct (collect_parsed_facts (page_files d)) as (Hkeyed & Hnd & _).
  set (parsed := collect_parsed (page_files d)) in *.
  set (E := index_by_id [] existing).
  eexists _, _, _, _, _, _, _. split; [reflexivity|].
  split; [|split; [|split; [reflexivity|reflexivity]]].
  - rewrite <- (key_set_size parsed Hnd). apply size_split.
  - unfold merged_catalog. rewrite py_sorted_length. unfold dict_values.
    rewrite length_map, (merged_dict_length parsed existing Hnd). fold E.
    assert (size (key_set parsed ∩ key_set E) <= length E)%nat.
    { rewrite <- (key_set_size E) by (apply index_by_id_NoDup; constructor).
      apply subseteq_size. set_solver. }
    lia.
Qed.

Lemma do_merge_report_adds_up_witness :
  exists found files wrote added updated kept,
    run_trace (do_merge false scenario_fs)
    = [EvPrint (MsgFound found files); EvPrint (MsgWrote wrote);
       EvPrint (MsgAdded added); EvPrint (MsgUpdatedCount updated);
       EvPrint (MsgKept kept)]
    /\ wrote = (added + updated + kept)%nat.
Proof.
  destruct (do_merge_report_adds_up scenario_fs
              (run_fs (do_merge false scenario_fs))
              (run_trace (do_merge false scenario_fs)))
    as (found & files & wrote & added & updated & kept & written
        & Htr & _ & Hsum & _).
  - vm_compute. reflexivity.
  - exists found, files, wrote, added, updated, kept.
    split; [exact Htr | exact Hsum].
Defined.



(** ** More on the page driver *)

(** X12. Writing and reading the cache agree: once [process_page] has
    processed a page whose recognition call answered, processing the page
    again, with whatever renderer and recognition service, returns the same
    patterns from the cache file, changes no file and makes no external
    call. *)
Theorem process_page_then_cached (CM : CaseMapping) (W W' : World)
    (fs : FS) (d : CacheDir) (page_num : nat) (png : bytes) (rest : list bytes)
    (dps : list DrumPattern) :
  output_dir fs = Some d ->
  page_json d !! page_num = None ->
  pdftoppm W page_num = ToolOutput (png :: rest) ->
  generate_content W png = Parsed dps ->
  exists patterns fs1 tr,
    process_page W page_num fs = (Return patterns, fs1, tr)
    /\ process_page W' page_num fs1
       = (Return patterns, fs1, [EvPrint (MsgAlreadyDone page_num)]).
Proof.
  intros Hd Hp Hr Hg.
  rewrite (process_page_parsed_run W fs d page_num png rest dps Hd Hp Hr Hg).
  eexists _, _, _. split; [reflexivity|].
  eapply process_page_cached_run.
  - reflexivity.
  - cbn [page_json]. apply lookup_insert_eq.
Qed.

Lemma process_page_then_cached_witness :
  exists patterns fs1 tr,
    process_page (CM := ascii_case) answering 11 sample_fs = (Return patterns, fs1, tr)
    /\ process_page (CM := ascii_case) failing_renderer 11 fs1
       = (Return patterns, fs1, [EvPrint (MsgAlreadyDone 11)]).
Proof.
  apply (process_page_then_cached ascii_case answering failing_renderer sample_fs
           {| page_json := {[ 9%nat := [rock_3_pattern] ]};
              page_error := {[ 10%nat := py "Expecting value" ]} |}
           11%nat sample_png [] rock_3_answer eq_refl); reflexivity.
Defined.

(** X13. Failures [process_page] does not catch leave it as exceptions and
    leave no trace on disk: a failing [pdftoppm] gives a
    [CalledProcessError] and a run that produced no image a [RuntimeError],
    both before the recognition service is called; an exception of the
    recognition call that is not a [ValueError] passes through.  In each case
    neither a cache file nor an error marker is written. *)
Theorem process_page_uncaught_failure (CM : CaseMapping) (W : World)
    (fs : FS) (page_num : nat) :
  ~ cached fs page_num ->
  (forall text, pdftoppm W page_num = ToolFailed text ->
     process_page W page_num fs
     = (Raise {| exn_class := CalledProcessError; exn_text := text |}, fs,
        [EvPrint (MsgRendering page_num); EvRender page_num]))
  /\ (pdftoppm W page_num = ToolOutput [] ->
      run_result (process_page W page_num fs)
      = Raise {| exn_class := RuntimeError;
                 exn_text := py "pdftoppm produced no output for page "
                             ++ decimal page_num |}
      /\ run_fs (process_page W page_num fs) = fs
      /\ run_trace (process_page W page_num fs)
         = [EvPrint (MsgRendering page_num); EvRender page_num])
  /\ (forall png rest e,
        pdftoppm W page_num = ToolOutput (png :: rest) ->
        generate_content W png = Failed e ->
        caught_by_process_page (exn_class e) = false ->
        process_page W page_num fs
        = (Raise e, fs,
           [EvPrint (MsgRendering page_num); EvRender page_num;
            EvPrint (MsgSending page_num); EvRecognize png])).
Proof.
  intros Hc. unfold cached in Hc.
  destruct (output_file fs page_num) as [x|] eqn:Hx; [destruct Hc; eauto|].
  rewrite (process_page_uncached W fs page_num Hx).
  unfold render_page. split; [|split].
  - intros text Hr. run_monad. rewrite Hr. reflexivity.
  - intros Hr. run_monad. rewrite Hr. repeat split.
  - intros png rest e Hr Hg Hcaught. unfold recognize_rendered,
      extract_patterns_from_image. run_monad. rewrite Hr. cbn.
    rewrite Hg. cbn. rewrite Hcaught. reflexivity.
Qed.

Lemma process_page_uncaught_failure_witness :
  run_result (process_page (CM := ascii_case) failing_renderer 11 sample_fs)
  = Raise {| exn_class := RuntimeError;
             exn_text := py "pdftoppm produced no output for page 11" |}
  /\ run_fs (process_page (CM := ascii_case) failing_renderer 11 sample_fs)
     = sample_fs.
Proof.
  destruct (process_page_uncaught_failure ascii_case failing_renderer sample_fs
              11%nat) as (_ & H & _).
  - intros [x Hx]. vm_compute in Hx. discriminate.
  - destruct (H eq_refl) as (Hr & Hf & _). split; [exact Hr | exact Hf].
Defined.

(** ** Resuming a scan *)

Section Resume.
Context {CM : CaseMapping}.

(** A page that succeeds is cached afterwards, and no cache file is lost. *)
Lemma process_page_succeeds (W : World) fs d page_num :
  output_dir fs = Some d ->
  page_succeeds W fs page_num ->
  exists patterns d' tr,
    process_page W page_num fs = (Return patterns, with_output_dir fs d', tr)
    /\ (forall n, is_Some (page_json d !! n) -> is_Some (page_json d' !! n))
    /\ is_Some (page_json d' !! page_num).
Proof.
  intros Hd Hok. destruct (page_json d !! page_num) as [ps|] eqn:Hp.
  - exists ps, d, [EvPrint (MsgAlreadyDone page_num)].
    rewrite (with_output_dir_id fs d Hd).
    split; [by apply process_page_cached_run with d|]. split; [done|].
    rewrite Hp. by eexists.
  - destruct Hok as [Hc|(png & rest & dps & Hr & Hg)].
    { unfold cached, output_file in Hc. rewrite Hd, Hp in Hc. by destruct Hc. }
    eexists _, _, _. split;
      [exact (process_page_parsed_run W fs d page_num png rest dps Hd Hp Hr Hg)|].
    cbn [page_json]. split.
    + intros n Hn. destruct (decide (n = page_num)) as [->|Hne].
      * rewrite lookup_insert_eq. by eexists.
      * by rewrite lookup_insert_ne.
    + rewrite lookup_insert_eq. by eexists.
Qed.

Lemma parse_pages_succeeds (W : World) pages : forall total fs d,
  output_dir fs = Some d ->
  (forall n, n ∈ pages -> page_succeeds W fs n) ->
  exists total' d' tr,
    parse_pages W pages total fs = (Return total', with_output_dir fs d', tr)
    /\ (forall n, is_Some (page_json d !! n) -> is_Some (page_json d' !! n))
    /\ (forall n, n ∈ pages -> is_Some (page_json d' !! n)).
Proof.
  induction pages as [|p rest IH]; intros total fs d Hd Hok.
  - exists total, d, []. rewrite (with_output_dir_id fs d Hd).
    split; [done|]. split; [done|]. intros n Hn. by apply elem_of_nil in Hn.
  - destruct (process_page_succeeds W fs d p Hd (Hok p ltac:(left)))
      as (ps & d1 & t1 & Hrun & Hmono & Hp).
    destruct (IH (total + length ps)%nat (with_output_dir fs d1) d1 eq_refl)
      as (total' & d2 & t2 & Hrun2 & Hmono2 & Hall).
    { intros n Hn. destruct (Hok n ltac:(by right)) as [Hc|Hw]; [|by right].
      left. unfold cached, output_file in *. cbn [output_dir with_output_dir].
      rewrite Hd in Hc. by apply Hmono. }
    exists total', d2, (t1 ++ EvSleep 1 :: t2). split; [|split].
    + cbn [parse_pages]. run_monad. rewrite Hrun, Hrun2. reflexivity.
    + intros n Hn. by apply Hmono2, Hmono.
    + intros n Hn. apply elem_of_cons in Hn as [->|Hn]; [by apply Hmono2 | by apply Hall].
Qed.

(** A scan over cached pages reads the cache files and sleeps. *)
Lemma parse_pages_cached (W : World) pages : forall total fs d,
  output_dir fs = Some d ->
  (forall n, n ∈ pages -> is_Some (page_json d !! n)) ->
  exists total',
    parse_pages W pages total fs = (Return total', fs, cached_scan_trace pages).
Proof.
  induction pages as [|p rest IH]; intros total fs d Hd Hall.
  - by exists total.
  - destruct (Hall p ltac:(left)) as [ps Hp].
    destruct (IH (total + length ps)%nat fs d Hd) as [total' Hrun].
    { intros n Hn. apply Hall. by right. }
    exists total'. cbn [parse_pages]. run_monad.
    rewrite (process_page_cached_run W fs d p ps Hd Hp), Hrun. reflexivity.
Qed.
End Resume.

(** X14. A scan can be resumed: when the client can be built and every page
    of the range succeeds (it is cached already, or rendering and recognition
    both answer), [do_parse] returns, and running it again over the same
    range, with whatever renderer and recognition service behind a client
    that can be built, changes no file and makes no external call: for each
    page it prints that the page is done and sleeps one second. *)
Theorem do_parse_resumable (CM : CaseMapping) (W W' : World)
    (fs : FS) (start end_ : nat) :
  pdf_present fs = true ->
  client_constructed W ->
  client_constructed W' ->
  (forall n, (start <= n <= end_)%nat -> page_succeeds W fs n) ->
  exists fs1 tr1 total,
    do_parse W start end_ fs = (Return tt, fs1, tr1)
    /\ do_parse W' start end_ fs1
       = (Return tt, fs1,
          cached_scan_trace (seq start (end_ + 1 - start))
          ++ [EvPrint (MsgParseDone total start end_)]).
Proof.
  intros Hpdf Hclient Hclient' Hok.
  set (d0 := default {| page_json := ∅; page_error := ∅ |} (output_dir fs)).
  destruct (parse_pages_succeeds W (seq start (end_ + 1 - start)) 0%nat
              (with_output_dir fs d0) d0 eq_refl)
    as (total1 & d1 & tr1 & Hrun1 & _ & Hall).
  { intros n Hn. apply elem_of_seq in Hn.
    destruct (Hok n ltac:(lia)) as [Hc|Hw]; [left | by right].
    unfold cached, output_file, d0 in *. cbn [output_dir with_output_dir].
    by destruct (output_dir fs). }
  destruct (parse_pages_cached W' (seq start (end_ + 1 - start)) 0%nat
              (with_output_dir fs d1) d1 eq_refl Hall) as [total Hrun2].
  eexists (with_output_dir fs d1), _, total. split.
  - rewrite (do_parse_run W fs start end_ Hpdf Hclient). fold d0.
    rewrite Hrun1. reflexivity.
  - rewrite (do_parse_run W' (with_output_dir fs d1) start end_ Hpdf Hclient').
    cbn [output_dir with_output_dir default from_option id].
    change (with_output_dir (with_output_dir fs d1) d1) with (with_output_dir fs d1).
    rewrite Hrun2. reflexivity.
Qed.

Lemma do_parse_resumable_witness :
  exists fs1 tr1 total,
    do_parse (CM := ascii_case) answering 9 11 sample_fs = (Return tt, fs1, tr1)
    /\ do_parse (CM := ascii_case) failing_renderer 9 11 fs1
       = (Return tt, fs1,
          cached_scan_trace [9; 10; 11]%nat ++ [EvPrint (MsgParseDone total 9 11)]).
Proof.
  apply (do_parse_resumable ascii_case answering failing_renderer sample_fs 9 11).
  - reflexivity.
  - reflexivity.
  - reflexivity.
  - intros n _. right. exists sample_png, [], rock_3_answer. split; reflexivity.
Defined.

(** ** The second loop of [normalize_pattern] *)

Lemma ensure_tracks_fold (tids : list str) : forall (d : dict str) k,
  dict_get k (fold_left (fun steps tid => if dict_mem tid steps then steps
                                          else dict_set tid ZEROS16 steps) tids d)
  = match dict_get k d with
    | Some v => Some v
    | None => if bool_decide (k ∈ tids) then Some ZEROS16 else None
    end.
Proof.
  induction tids as [|t tids IH]; intros d k.
  - cbn. by destruct (dict_get k d).
  - cbn [fold_left]. rewrite IH. unfold dict_mem.
    destruct (dict_get t d) as [vt|] eqn:Ht.
    + destruct (dict_get k d) as [v|] eqn:Hk; [done|].
      assert (k <> t) by congruence.
      destruct (bool_decide_reflect (k ∈ tids)) as [Hin|Hn].
      * rewrite bool_decide_eq_true_2; [done | by right].
      * rewrite bool_decide_eq_false_2; [done|]. by apply not_elem_of_cons.
    + destruct (decide (k = t)) as [->|Hne].
      * rewrite dict_get_set_eq, Ht. rewrite bool_decide_eq_true_2; [done | left].
      * rewrite dict_get_set_ne by done. destruct (dict_get k d); [done|].
        destruct (bool_decide_reflect (k ∈ tids)) as [Hin|Hn].
        -- rewrite bool_decide_eq_true_2; [done | by right].
        -- rewrite bool_decide_eq_false_2; [done|]. by apply not_elem_of_cons.
Qed.

(** X15. The loop "ensure all 12 tracks present", on any steps dictionary:
    an entry that is there keeps its value, a track id that is missing gets
    sixteen zeros, and nothing else is added. *)
Theorem ensure_tracks_contract (d : dict str) (k : str) :
  dict_get k (ensure_tracks d)
  = match dict_get k d with
    | Some v => Some v
    | None => if bool_decide (k ∈ ALL_TRACK_IDS) then Some ZEROS16 else None
    end.
Proof. apply ensure_tracks_fold. Qed.

(** ** More on the merge reports *)

Lemma sorted_ids_NoDup ids : NoDup (sorted_ids ids).
Proof. unfold sorted_ids. rewrite py_sorted_perm. apply NoDup_elements. Qed.

Lemma sorted_ids_in_order ids : in_order (fun k => k) (sorted_ids ids).
Proof. apply py_sorted_in_order. Qed.

Lemma listed_ids_sorted (ids : gset str) :
  let l := if decide (ids = ∅) then [] else sorted_ids ids in
  NoDup l /\ in_order (fun k => k) l.
Proof.
  cbn zeta. destruct (decide (ids = ∅)).
  - split; [constructor | exact I].
  - split; [apply sorted_ids_NoDup | apply sorted_ids_in_order].
Qed.

(** X16. The two id lists of a dry run are sorted and name no id twice, and
    no id is on both lists. *)
Theorem do_merge_dry_run_lists_sorted (fs : FS) :
  let tr := run_trace (do_merge true fs) in
  NoDup (reported_new tr) /\ in_order (fun k => k) (reported_new tr)
  /\ NoDup (reported_updated tr) /\ in_order (fun k => k) (reported_updated tr)
  /\ forall k, k ∈ reported_new tr -> k ∉ reported_updated tr.
Proof.
  cbn zeta.
  assert (Hempty : forall r m,
             do_merge true fs = (r, fs, [EvPrint m]) ->
             reported_new [EvPrint m] = [] -> reported_updated [EvPrint m] = [] ->
             NoDup (reported_new (run_trace (do_merge true fs)))
             /\ in_order (fun k => k) (reported_new (run_trace (do_merge true fs)))
             /\ NoDup (reported_updated (run_trace (do_merge true fs)))
             /\ in_order (fun k => k) (reported_updated (run_trace (do_merge true fs)))
             /\ forall k, k ∈ reported_new (run_trace (do_merge true fs)) ->
                          k ∉ reported_updated (run_trace (do_merge true fs))).
  { intros r m -> Hn Hu. unfold run_trace. cbn [snd]. rewrite Hn, Hu.
    repeat split; try constructor. intros k Hk. by apply elem_of_nil in Hk. }
  destruct (output_dir fs) as [d|] eqn:Hd.
  2:{ apply (Hempty (Exit 1) MsgNoOutputDir); [|done..].
      unfold do_merge. run_monad. by rewrite Hd. }
  destruct (page_files d) as [|pf pfs] eqn:Hpf.
  { apply (Hempty (Exit 1) MsgNoPageFiles); [|done..].
    unfold do_merge. run_monad. by rewrite Hd, Hpf. }
  assert (Hne : page_files d <> []) by (by rewrite Hpf).
  destruct (patterns_json fs) as [catalog|] eqn:Hcat.
  2:{ apply (Hempty (Raise no_such_file)
               (MsgFound (length (collect_parsed (page_files d)))
                         (length (page_files d)))); [|done..].
      unfold do_merge. run_monad. by rewrite Hd, Hpf, Hcat. }
  clear Hempty. rewrite (do_merge_run true fs d catalog Hd Hne Hcat).
  unfold run_trace. cbn [snd].
  rewrite reported_new_dry_run, reported_updated_dry_run. cbn zeta.
  split; [apply listed_ids_sorted|]. split; [apply listed_ids_sorted|].
  split; [apply listed_ids_sorted|]. split; [apply listed_ids_sorted|].
  intros k. rewrite !listed_ids_elem. set_solver.
Qed.

(** X17. A dry run predicts the merge: on the same files, the numbers a dry
    run prints as "would add" and "would update" are the numbers the merge
    prints as added and updated. *)
Theorem dry_run_predicts_merge (fs fs1 : FS) (tr : list Event) :
  do_merge false fs = (Return tt, fs1, tr) ->
  exists added updated,
    EvPrint (MsgAdded added) ∈ tr
    /\ EvPrint (MsgUpdatedCount updated) ∈ tr
    /\ run_result (do_merge true fs) = Return tt
    /\ EvPrint (MsgWouldAdd added) ∈ run_trace (do_merge true fs)
    /\ EvPrint (MsgWouldUpdate updated) ∈ run_trace (do_merge true fs).
Proof.
  intros H.
  destruct (do_merge_returns false fs fs1 tr H) as (d & existing & Hd & Hpf & Hcat).
  rewrite (do_merge_run false fs d existing Hd Hpf Hcat) in H.
  injection H as _ <-.
  rewrite (do_merge_run true fs d existing Hd Hpf Hcat).
  unfold run_result, run_trace, merge_report, dry_run_report. cbn [fst snd app].
  eexists _, _. split; [do 2 right; left|]. split; [do 3 right; left|].
  split; [reflexivity|]. split; [do 2 right; left | do 3 right; left].
Qed.

Lemma dry_run_predicts_merge_witness :
  exists added updated,
    EvPrint (MsgAdded added) ∈ run_trace (do_merge false scenario_fs)
    /\ EvPrint (MsgWouldAdd added) ∈ run_trace (do_merge true scenario_fs)
    /\ EvPrint (MsgWouldUpdate updated) ∈ run_trace (do_merge true scenario_fs).
Proof.
  destruct (dry_run_predicts_merge scenario_fs
              (run_fs (do_merge false scenario_fs))
              (run_trace (do_merge false scenario_fs)))
    as (added & updated & Ha & _ & _ & Hwa & Hwu).
  - vm_compute. reflexivity.
  - exists added, updated. split; [exact Ha|]. split; [exact Hwa | exact Hwu].
Defined.

(** ** The order of the page files *)







(** ** Display names *)

Lemma no_doubled_space_sound s : no_doubled_space s <-> ~ doubled_space s.
Proof.
  split.
  - intros H [l1 [l2 ->]]. induction l1 as [|a l1 IH]; cbn in H.
    + destruct H as [H _]. by apply H.
    + destruct (l1 ++ SPACE :: SPACE :: l2) eqn:E.
      * destruct l1; discriminate.
      * apply IH. apply H.
  - induction s as [|x [|y r] IH]; intros H; [done..|]. split.
    + intros [-> ->]. apply H. by exists [], r.
    + apply IH. intros (l1 & l2 & E). apply H. exists (x :: l1), l2.
      by rewrite E.
Qed.

Lemma collapse_spaces_from_plain prev s :
  only_plain_spaces (collapse_spaces_from prev s).
Proof.
  unfold only_plain_spaces. revert prev.
  induction s as [|c r IH]; intros prev; cbn [collapse_spaces_from]; [constructor|].
  destruct (is_space c) eqn:E.
  - destruct prev; [apply IH|]. constructor; [done | apply IH].
  - constructor; [congruence | apply IH].
Qed.

Lemma collapse_spaces_from_head s :
  head (collapse_spaces_from true s) <> Some SPACE.
Proof.
  induction s as [|c r IH]; cbn [collapse_spaces_from]; [done|].
  destruct (is_space c) eqn:E; [done|]. cbn. intros [= ->]. discriminate.
Qed.

Lemma collapse_spaces_from_no_doubled prev s :
  no_doubled_space (collapse_spaces_from prev s).
Proof.
  revert prev. induction s as [|c r IH]; intros prev; cbn [collapse_spaces_from];
    [done|].
  destruct (is_space c) eqn:E.
  - destruct prev; [apply IH|].
    pose proof (IH true) as Hr. pose proof (collapse_spaces_from_head r) as Hh.
    destruct (collapse_spaces_from true r) as [|y t]; [done|].
    split; [|done]. intros [_ ->]. by apply Hh.
  - pose proof (IH false) as Hr.
    destruct (collapse_spaces_from false r) as [|y t]; [done|].
    split; [|done]. intros [-> _]. discriminate.
Qed.

Lemma lstrip_space_suffix s : exists p, s = p ++ lstrip_space s.
Proof.
  induction s as [|x r [p Hp]]; cbn [lstrip_space].
  - by exists [].
  - destruct (is_space x); [| by exists []].
    exists (x :: p). cbn. by f_equal.
Qed.

Lemma lstrip_space_head s c : head (lstrip_space s) = Some c -> is_space c = false.
Proof.
  induction s as [|x r IH]; cbn [lstrip_space]; [done|].
  destruct (is_space x) eqn:E; [done|]. by intros [= <-].
Qed.

Lemma strip_space_infix s : exists p q, s = p ++ strip_space s ++ q.
Proof.
  unfold strip_space. destruct (lstrip_space_suffix s) as [p Hp].
  destruct (lstrip_space_suffix (rev (lstrip_space s))) as [q Hq].
  exists p, (rev q). rewrite <- rev_app_distr, <- Hq, rev_involutive. exact Hp.
Qed.

Lemma strip_space_last s c : last (strip_space s) = Some c -> is_space c = false.
Proof. unfold strip_space. rewrite last_rev. apply lstrip_space_head. Qed.

Lemma strip_space_head s c : head (strip_space s) = Some c -> is_space c = false.
Proof.
  unfold strip_space. intros H.
  destruct (lstrip_space_suffix (rev (lstrip_space s))) as [q Hq].
  apply (f_equal (@rev char)) in Hq. rewrite rev_involutive, rev_app_distr in Hq.
  apply (lstrip_space_head s c). rewrite Hq.
  by destruct (rev (lstrip_space (rev (lstrip_space s)))).
Qed.

Lemma doubled_space_app l s r : doubled_space s -> doubled_space (l ++ s ++ r).
Proof.
  intros [l1 [l2 ->]]. exists (l ++ l1), (l2 ++ r). by rewrite <- !app_assoc.
Qed.

(** The string [clean_name] splits into words is in normal form. *)
Lemma cleaned_space_normal name :
  space_normal (strip_space (collapse_spaces (sub_colon SPACE name))).
Proof.
  set (t := collapse_spaces (sub_colon SPACE name)).
  destruct (strip_space_infix t) as (p & q & Hpq).
  assert (Hplain : only_plain_spaces (strip_space t)).
  { pose proof (collapse_spaces_from_plain false (sub_colon SPACE name)) as H.
    fold (collapse_spaces (sub_colon SPACE name)) in H. fold t in H.
    unfold only_plain_spaces in *. rewrite Hpq in H.
    apply Forall_app in H as [_ H]. by apply Forall_app in H as [H _]. }
  split; [done|]. split; [|split].
  - intros H. by apply strip_space_head in H.
  - intros H. by apply strip_space_last in H.
  - intros H. apply (doubled_space_app p _ q) in H. rewrite <- Hpq in H.
    revert H. apply no_doubled_space_sound, collapse_spaces_from_no_doubled.
Qed.

Lemma split_char_not_nil sep s : split_char sep s <> [].
Proof.
  destruct s as [|x r]; cbn [split_char]; [done|].
  destruct (x =? sep); [done|]. by destruct (split_char sep r).
Qed.

Lemma split_char_chars sep s :
  Forall (Forall (fun c => c ∈ s /\ c <> sep)) (split_char sep s).
Proof.
  induction s as [|x r IH]; cbn [split_char]; [by repeat constructor|].
  assert (IH' : Forall (Forall (fun c => c ∈ x :: r /\ c <> sep)) (split_char sep r)).
  { eapply Forall_impl; [exact IH|]. intros w Hw. eapply Forall_impl; [exact Hw|].
    intros c [Hc Hne]. split; [by right | done]. }
  destruct (N.eqb_spec x sep) as [->|Hx]; [by constructor|].
  destruct (split_char sep r) as [|w ws] eqn:E; [by apply split_char_not_nil in E|].
  apply Forall_cons in IH' as [Hw Hws]. constructor; [|done].
  constructor; [|done]. split; [left | done].
Qed.

Lemma split_char_single sep s w : split_char sep s = [w] -> w = s.
Proof.
  revert w. induction s as [|x r IH]; intros w; cbn [split_char].
  - by intros [= <-].
  - destruct (x =? sep).
    + intros [= <- H]. by apply split_char_not_nil in H.
    + destruct (split_char sep r) as [|w' ws] eqn:E; [by apply split_char_not_nil in E|].
      intros [= <- ->]. f_equal. by apply IH.
Qed.

Lemma split_space_words s :
  last s <> Some SPACE -> no_doubled_space s ->
  exists w ws,
    split_char SPACE s = w :: ws
    /\ Forall (fun w => w <> []) ws
    /\ (head s <> Some SPACE -> s <> [] -> w <> []).
Proof.
  induction s as [|x r IH]; intros Hl Hd.
  - exists [], []. by repeat split.
  - destruct IH as (w & ws & Hs & Hws & Hw).
    { destruct r; [done | exact Hl]. }
    { destruct r; [done | apply Hd]. }
    cbn [split_char]. rewrite Hs. destruct (N.eqb_spec x SPACE) as [->|Hx].
    + exists [], (w :: ws). split; [done|]. split; [|done].
      constructor; [|done]. apply Hw.
      * destruct r as [|y r]; [done|]. cbn. intros [= ->]. by apply Hd.
      * intros ->. by apply Hl.
    + exists (x :: w), ws. by repeat split.
Qed.

Lemma join_Forall (P : char -> Prop) sep ws :
  Forall P sep -> Forall (Forall P) ws -> Forall P (join sep ws).
Proof.
  intros Hsep. induction 1 as [|w ws Hw Hws IH]; cbn [join]; [constructor|].
  destruct ws as [|w2 ws]; [done|]. apply Forall_app. split; [done|].
  apply Forall_app. by split.
Qed.

Lemma spaceless_normal w :
  Forall (fun c => is_space c = false) w -> space_normal w.
Proof.
  intros H. split; [|split; [|split]].
  - eapply Forall_impl; [exact H|]. cbn. congruence.
  - destruct w as [|c r]; [done|]. apply Forall_cons in H as [H _].
    cbn. intros [= ->]. discriminate.
  - intros Hl. apply last_Some in Hl as [l' ->].
    apply Forall_app in H as [_ H]. apply Forall_cons in H as [H _]. discriminate.
  - intros (l1 & l2 & ->). apply Forall_app in H as [_ H].
    apply Forall_cons in H as [H _]. discriminate.
Qed.

Lemma word_then_space w r :
  Forall (fun c => is_space c = false) w ->
  head r <> Some SPACE -> no_doubled_space r ->
  no_doubled_space (w ++ SPACE :: r).
Proof.
  intros Hw Hh Hr. induction Hw as [|c t Hc _ IH]; cbn [app].
  - destruct r as [|y r]; [done|]. split; [|done]. intros [_ ->]. by apply Hh.
  - destruct (t ++ SPACE :: r) eqn:E; [done|]. split; [|done].
    intros [-> _]. discriminate.
Qed.

Lemma join_words ws :
  Forall is_word ws ->
  space_normal (join [SPACE] ws) /\ (ws <> [] -> join [SPACE] ws <> []).
Proof.
  induction 1 as [|w ws [Hne Hw] Hws IH]; cbn [join].
  - split; [|done]. by apply spaceless_normal.
  - destruct ws as [|w2 ws]; [split; [by apply spaceless_normal | done]|].
    destruct IH as [(Hplain & Hhead & Hlast & Hdbl) Hnonempty].
    specialize (Hnonempty ltac:(done)).
    set (r := join [SPACE] (w2 :: ws)) in *. split; [|by destruct w].
    split; [|split; [|split]].
    + apply Forall_app. split.
      * eapply Forall_impl; [exact Hw|]. cbn. congruence.
      * by constructor.
    + destruct w as [|c t]; [done|]. apply Forall_cons in Hw as [Hc _].
      cbn. intros [= ->]. discriminate.
    + change (w ++ [SPACE] ++ r) with (w ++ SPACE :: r).
      destruct (last r) as [c|] eqn:El.
      * apply last_Some in El as [l' El]. rewrite El.
        change (w ++ SPACE :: l' ++ [c]) with (w ++ (SPACE :: l') ++ [c]).
        rewrite app_assoc, last_snoc. intros [= ->]. by apply Hlast.
      * by apply last_None in El.
    + apply no_doubled_space_sound. apply word_then_space; [done..|].
      by apply no_doubled_space_sound.
Qed.

Section Titled.
Context {CM : CaseMapping}.
Hypothesis capitalize_nonempty : forall w, w <> [] -> str_capitalize w <> [].
Hypothesis capitalize_spaceless : forall w,
  Forall (fun c => is_space c = false) w ->
  Forall (fun c => is_space c = false) (str_capitalize w).

Lemma titled_word part :
  is_word part ->
  is_word (join [HYPHEN] (map str_capitalize (split_char HYPHEN part))).
Proof.
  intros [Hne Hw]. split.
  - destruct (split_char HYPHEN part) as [|w [|w2 ws]] eqn:E.
    + by apply split_char_not_nil in E.
    + apply split_char_single in E as ->. cbn. by apply capitalize_nonempty.
    + cbn [map join]. intros H. apply app_eq_nil in H as [_ H]. discriminate.
  - apply join_Forall; [by repeat constructor|].
    apply Forall_map. eapply Forall_impl; [apply (split_char_chars HYPHEN part)|].
    intros w Hc. apply capitalize_spaceless.
    eapply Forall_impl; [exact Hc|]. intros c [Hin _]. cbn.
    rewrite Forall_forall in Hw. by apply Hw.
Qed.

Lemma clean_name_normal name : space_normal (clean_name name).
Proof.
  unfold clean_name.
  pose proof (cleaned_space_normal name) as (Hplain & Hhead & Hlast & Hdbl).
  set (s := strip_space (collapse_spaces (sub_colon SPACE name))) in *.
  destruct (decide (s = [])) as [->|Hs].
  { cbn. apply spaceless_normal. apply capitalize_spaceless. constructor. }
  apply join_words. apply Forall_map.
  destruct (split_space_words s Hlast) as (w & ws & Hsplit & Hws & Hw).
  { by apply no_doubled_space_sound. }
  pose proof (split_char_chars SPACE s) as Hchars. rewrite Hsplit in *.
  assert (Hnonempty : Forall (fun w => w <> []) (w :: ws)).
  { constructor; [by apply Hw | done]. }
  rewrite Forall_forall in Hnonempty, Hchars. apply Forall_forall.
  intros part Hpart. apply titled_word. split; [by apply Hnonempty|].
  eapply Forall_impl; [exact (Hchars part Hpart)|]. intros c [Hin Hc]. cbn.
  unfold only_plain_spaces in Hplain. rewrite Forall_forall in Hplain.
  destruct (is_space c) eqn:E; [|done]. destruct Hc. by apply Hplain.
Qed.
End Titled.

(** X19. Display names are tidy: provided capitalising a word neither
    empties it nor puts whitespace into it, as Python's [str.capitalize]
    does not, the result of [clean_name] has no whitespace but single space
    characters between its words, and none at either end. *)
Theorem clean_name_space_normal (CM : CaseMapping) (name : str) :
  (forall w, w <> [] -> str_capitalize w <> []) ->
  (forall w, Forall (fun c => is_space c = false) w ->
             Forall (fun c => is_space c = false) (str_capitalize w)) ->
  space_normal (clean_name name).
Proof. intros H1 H2. by apply clean_name_normal. Qed.

Lemma ascii_capitalize_nonempty w :
  w <> [] -> str_capitalize (CaseMapping := ascii_case) w <> [].
Proof. by destruct w. Qed.

Lemma ascii_case_char_spaceless c :
  is_space c = false ->
  is_space (ascii_upper_char c) = false /\ is_space (ascii_lower_char c) = false.
Proof.
  intros Hc. unfold ascii_upper_char, ascii_lower_char, in_range. split.
  - destruct (97 <=? c) eqn:E1; [|done]. destruct (c <=? 122) eqn:E2; [|done].
    cbn [andb]. apply N.leb_le in E1, E2. unfold is_space, in_range.
    repeat (apply orb_false_iff; split);
      rewrite ?andb_false_iff, ?N.leb_gt, ?N.eqb_neq; lia.
  - destruct (65 <=? c) eqn:E1; [|done]. destruct (c <=? 90) eqn:E2; [|done].
    cbn [andb]. apply N.leb_le in E1, E2. unfold is_space, in_range.
    repeat (apply orb_false_iff; split);
      rewrite ?andb_false_iff, ?N.leb_gt, ?N.eqb_neq; lia.
Qed.

Lemma ascii_capitalize_spaceless w :
  Forall (fun c => is_space c = false) w ->
  Forall (fun c => is_space c = false) (str_capitalize (CaseMapping := ascii_case) w).
Proof.
  intros H. destruct H as [|c r Hc Hr]; cbn; [constructor|]. constructor.
  - by apply ascii_case_char_spaceless.
  - apply Forall_map. eapply Forall_impl; [exact Hr|]. intros x Hx. cbn.
    by apply ascii_case_char_spaceless.
Qed.

Lemma clean_name_space_normal_witness :
  space_normal (clean_name (CM := ascii_case) (py "  new   wave:  1 ")).
Proof.
  apply (clean_name_space_normal ascii_case (py "  new   wave:  1 ")
           ascii_capitalize_nonempty ascii_capitalize_spaceless).
Defined.

(** ** Cache files are written once *)

Lemma keeps_cache_refl fs : keeps_cache fs fs.
Proof. by repeat split. Qed.

Lemma keeps_cache_trans fs1 fs2 fs3 :
  keeps_cache fs1 fs2 -> keeps_cache fs2 fs3 -> keeps_cache fs1 fs3.
Proof.
  intros (Ha & Hb & Hc) (Ha' & Hb' & Hc'). split; [congruence|].
  split; [congruence|]. intros m ps H. by apply Hc', Hc.
Qed.

Lemma write_output_file_keeps page_num patterns fs :
  output_file fs page_num = None ->
  keeps_cache fs (run_fs (write_output_file page_num patterns fs)).
Proof.
  intros Hn. unfold write_output_file, run_fs. run_monad.
  unfold output_file in Hn. destruct (output_dir fs) as [d|] eqn:Hd;
    cbn [fst snd]; [|apply keeps_cache_refl].
  split; [done|]. split; [done|]. intros m ps. unfold output_file.
  cbn [output_dir with_output_dir page_json]. rewrite Hd. intros Hm.
  rewrite lookup_insert_ne; [done|]. intros ->. congruence.
Qed.

Lemma write_error_file_keeps page_num text fs :
  keeps_cache fs (run_fs (write_error_file page_num text fs)).
Proof.
  unfold write_error_file, run_fs. run_monad.
  destruct (output_dir fs) as [d|] eqn:Hd; cbn [fst snd]; [|apply keeps_cache_refl].
  split; [done|]. split; [done|]. intros m ps. unfold output_file.
  cbn [output_dir with_output_dir page_json]. by rewrite Hd.
Qed.

Section WriteOnce.
Context {CM : CaseMapping} (W : World).

Lemma recognize_rendered_keeps page_num png fs :
  output_file fs page_num = None ->
  keeps_cache fs (run_fs (recognize_rendered W page_num png fs)).
Proof.
  intros Hn. unfold recognize_rendered, extract_patterns_from_image, run_fs.
  run_monad. destruct (generate_content W png) as [dps|e]; cbn [fst snd].
  - rewrite normalize_all_run. cbn [fst snd].
    pose proof (write_output_file_keeps page_num
                  (normalized_patterns (map raw_of_drum_pattern dps)) fs Hn) as H.
    unfold run_fs in H.
    destruct (write_output_file page_num _ fs) as [[[u|e|c] fs1] t1]; exact H.
  - destruct (caught_by_process_page (exn_class e)); cbn [fst snd];
      [|apply keeps_cache_refl].
    pose proof (write_error_file_keeps page_num (exn_text e) fs) as H.
    unfold run_fs in H.
    destruct (write_error_file page_num (exn_text e) fs) as [[[u|e'|c] fs1] t1];
      exact H.
Qed.

Lemma process_page_keeps page_num fs :
  keeps_cache fs (run_fs (process_page W page_num fs)).
Proof.
  destruct (output_file fs page_num) as [ps|] eqn:Hp.
  - unfold output_file in Hp. destruct (output_dir fs) as [d|] eqn:Hd; [|done].
    rewrite (process_page_cached_run W fs d page_num ps Hd Hp).
    apply keeps_cache_refl.
  - rewrite (process_page_uncached W fs page_num Hp).
    pose proof (fun png => recognize_rendered_keeps page_num png fs Hp) as H.
    unfold render_page, run_fs in *. run_monad.
    destruct (pdftoppm W page_num) as [text|[|png rest]]; cbn [fst snd];
      [apply keeps_cache_refl..|].
    specialize (H png).
    destruct (recognize_rendered W page_num png fs) as [[r fs1] t1]. exact H.
Qed.

Lemma parse_pages_keeps pages : forall total fs,
  keeps_cache fs (run_fs (parse_pages W pages total fs)).
Proof.
  induction pages as [|p rest IH]; intros total fs; [apply keeps_cache_refl|].
  cbn [parse_pages]. pose proof (process_page_keeps p fs) as Hp.
  unfold run_fs in *. run_monad.
  destruct (process_page W p fs) as [[[ps|e|c] fs1] t1]; cbn [fst snd] in *;
    [|done..].
  specialize (IH (total + length ps)%nat fs1).
  destruct (parse_pages W rest (total + length ps)%nat fs1) as [[r fs2] t2].
  cbn [fst snd] in *. by apply keeps_cache_trans with fs1.
Qed.
End WriteOnce.

(** X20. Cache files are written once: however a scan ends, and whatever the
    renderer and the recognition service do, [do_parse] leaves every cache
    file that existed before it with its content, and never touches the
    catalog or the PDF. *)
Theorem do_parse_keeps_cache (CM : CaseMapping) (W : World) (fs : FS)
    (start end_ : nat) :
  pdf_present (run_fs (do_parse W start end_ fs)) = pdf_present fs
  /\ patterns_json (run_fs (do_parse W start end_ fs)) = patterns_json fs
  /\ forall m patterns,
       output_file fs m = Some patterns ->
       output_file (run_fs (do_parse W start end_ fs)) m = Some patterns.
Proof.
  change (keeps_cache fs (run_fs (do_parse W start end_ fs))).
  unfold do_parse, run_fs. run_monad.
  destruct (pdf_present fs) eqn:Hpdf; cbn [negb fst snd]; [|apply keeps_cache_refl].
  rewrite mkdir_output_dir_run.
  set (fs0 := with_output_dir fs _).
  assert (H0 : keeps_cache fs fs0).
  { unfold fs0. split; [done|]. split; [done|]. intros m ps. unfold output_file.
    cbn [output_dir with_output_dir]. by destruct (output_dir fs). }
  rewrite new_client_run.
  destruct (genai_Client W (GEMINI_API_KEY W)) as [e|]; cbn [fst snd]; [exact H0|].
  pose proof (parse_pages_keeps W (seq start (end_ + 1 - start)) 0%nat fs0) as H.
  unfold run_fs in H.
  destruct (parse_pages W (seq start (end_ + 1 - start)) 0%nat fs0)
    as [[[total|e|c] fs1] t1]; cbn [fst snd] in *;
    by apply keeps_cache_trans with fs0.
Qed.

Lemma do_parse_keeps_cache_witness :
  output_file (run_fs (do_parse (CM := ascii_case) failing_renderer 9 12 sample_fs)) 9
  = Some [rock_3_pattern].
Proof.
  apply (proj2 (proj2 (do_parse_keeps_cache ascii_case failing_renderer sample_fs
                         9 12))).
  reflexivity.
Defined.
